(** * Cloud Functions reliability samples: idempotency and order processing

    A shallow embedding of [idempotency/index.js], [retries/index.js],
    [retries/caller.js] and [order-processing/index.js].

    - Cloud Firestore is an in-memory store of typed collections.  It is
      available, and it accepts every plain object as document data; the
      limits it puts on field names, nesting and size are outside the
      model.
    - A promise is a state-passing computation that ends fulfilled,
      rejected or thrown.  Everything a function does to the outside (log
      lines, HTTP requests, committed writes) is appended to a trace, so
      that "this call was (not) made" is a statement about a list.
    - What the outside answers during a call (the clock, the generated
      document id, the responses of the called services) is an argument of
      the function.
    - Attempts run one after the other; the store is all they share. *)

From stdpp Require Import gmap strings list.

Local Open Scope Z_scope.
#[local] Set Warnings "-register-all".

(** ** Values *)

(** What [JSON.parse] produces.  Numbers are never inspected by the code;
    integers stand for them. *)
Inductive json :=
| JNull
| JBool (b : bool)
| JNum (n : Z)
| JStr (s : string)
| JArr (items : list json)
| JObj (fields : list (string * json)).

(** A Cloud Pub/Sub event: [event.data] is the message, [event.data.data]
    its base64 payload ([None] when the property is missing),
    [event.context] carries the event id and the timestamp. *)
Record pubsubMessage := { data : option string }.
Record eventContext := { eventId : string; timestamp : string }.
Record event := { event_data : pubsubMessage; context : eventContext }.

(** A document of the [sentEmails] collection.  The code writes
    [{sent: true}] and [{lease: Date}]; either field may be missing.  A
    [Date] is its [getTime()], milliseconds since the epoch. *)
Record emailDoc := { sent : option bool; lease : option Z }.

(** The [order] object of the order pipeline; [cook] is unset until
    [order.cook = res.cook] runs. *)
Record order := {
  order_id : string;
  order_timestamp : string;
  order_meal : string;
  order_cook : option string
}.

(** ** Cloud Firestore *)

(** [contents] and [sentEmails] are the two collections of the idempotency
    sample; [orders] maps a collection name ('incoming', 'incomingRetry',
    'incomingRetryIdempotent') to its documents. *)
Record firestore := {
  contents : gmap string json;
  sentEmails : gmap string emailDoc;
  orders : gmap string (gmap string order)
}.

Definition emptyStore : firestore :=
  {| contents := ∅; sentEmails := ∅; orders := ∅ |}.

(** [ref.set(data)]: create or overwrite the whole document. *)
Inductive write :=
| SetContent (docId : string) (content : json)
| SetEmail (docId : string) (doc : emailDoc)
| SetOrder (collection docId : string) (o : order).

Definition collectionDocs (collection : string) (s : firestore)
  : gmap string order :=
  default ∅ (orders s !! collection).

Definition applyWrite (s : firestore) (wr : write) : firestore :=
  match wr with
  | SetContent docId content =>
      {| contents := <[docId := content]> (contents s);
         sentEmails := sentEmails s; orders := orders s |}
  | SetEmail docId doc =>
      {| contents := contents s;
         sentEmails := <[docId := doc]> (sentEmails s); orders := orders s |}
  | SetOrder collection docId o =>
      {| contents := contents s; sentEmails := sentEmails s;
         orders := <[collection := <[docId := o]> (collectionDocs collection s)]>
                     (orders s) |}
  end.

(** ** Effects, errors and promises *)

Inductive effect :=
| Log (line : string)
  (** [console.log] of the order pipeline *)
| SendEmail (text : option json)
  (** [console.log(`Sending email with text ${content.text}`)], which
      stands for the commented-out [sgMail.send(email)] *)
| Request (method uri : string) (body : option json)
  (** [request({method, uri, body, json: true})] *)
| Commit (wr : write)
  (** a write that reached the store *).

Inductive error :=
| SyntaxError
  (** [JSON.parse] on text that is not JSON *)
| TypeError
  (** reading a property of [null] *)
| InvalidDocument
  (** Firestore refuses data that is not a plain object *)
| AlreadyExists
  (** Firestore [create] on an id that is taken *)
| StatusCodeError (status : Z)
  (** [request-promise] on a response that is not 2xx *)
| Reason (msg : string)
  (** [Promise.reject(msg)] *).

(** How a call ends: its promise is fulfilled, its promise is rejected, or
    it throws before it returns a promise. *)
Inductive completion (A : Type) :=
| Fulfilled (a : A)
| Rejected (e : error)
| Thrown (e : error).
Arguments Fulfilled {A} a.
Arguments Rejected {A} e.
Arguments Thrown {A} e.

Record world := { db : firestore; trace : list effect }.

Definition M (A : Type) : Type := world -> completion A * world.

Definition ret {A} (a : A) : M A := fun w => (Fulfilled a, w).
Definition throw {A} (e : error) : M A := fun w => (Thrown e, w).
Definition reject {A} (e : error) : M A := fun w => (Rejected e, w).

Definition bind {A B} (m : M A) (f : A -> M B) : M B :=
  fun w =>
    match m w with
    | (Fulfilled a, w') => f a w'
    | (Rejected e, w') => (Rejected e, w')
    | (Thrown e, w') => (Thrown e, w')
    end.

(** A callback passed to [.then] or to [runTransaction]: an exception it
    throws rejects the promise. *)
Definition callback {A} (m : M A) : M A :=
  fun w =>
    match m w with
    | (Thrown e, w') => (Rejected e, w')
    | r => r
    end.

(** [p.then(f)] *)
Definition andThen {A B} (p : M A) (f : A -> M B) : M B :=
  bind p (fun a => callback (f a)).

Notation "x <~ m ;; k" := (bind m (fun x => k))
  (at level 20, m at level 99, k at level 200, only parsing).
Notation "m ;; k" := (bind m (fun _ => k))
  (at level 100, k at level 200, right associativity, only parsing).

Definition emit (e : effect) : M unit :=
  fun w => (Fulfilled tt, {| db := db w; trace := trace w ++ [e] |}).

Definition commit (wr : write) (w : world) : world :=
  {| db := applyWrite (db w) wr; trace := trace w ++ [Commit wr] |}.

(** What a transaction callback did: its result, the writes it queued
    with [transaction.set] and the lines it logged. *)
Record attempt (A : Type) := {
  outcome : completion A;
  queued : list write;
  logged : list effect
}.
Arguments outcome {A} _.
Arguments queued {A} _.
Arguments logged {A} _.

(** [db.runTransaction(updateFunction)]: the callback reads the store as
    it is when the transaction starts; the queued writes are committed
    only when the callback's promise is fulfilled, otherwise none is. *)
Definition runTransaction {A} (updateFunction : firestore -> attempt A) : M A :=
  fun w =>
    let a := updateFunction (db w) in
    let w1 := {| db := db w; trace := trace w ++ logged a |} in
    match outcome a with
    | Fulfilled v => (Fulfilled v, foldl (fun w' wr => commit wr w') w1 (queued a))
    | Rejected e => (Rejected e, w1)
    | Thrown e => (Rejected e, w1)
    end.

(** ** The lease ledger of [idempotency/index.js] *)

(** [emailDoc.exists && emailDoc.data().sent] *)
Definition existsAndSent (emailDoc : option emailDoc) : bool :=
  match emailDoc with
  | Some d => match sent d with Some true => true | _ => false end
  | None => false
  end.

(** [emailDoc.exists && new Date() < emailDoc.data().lease]; a missing
    [lease] is [undefined], and a comparison with it is false. *)
Definition existsAndLeased (now : Z) (emailDoc : option emailDoc) : bool :=
  match emailDoc with
  | Some d => match lease d with Some l => now <? l | None => false end
  | None => false
  end.

Definition leaseTime : Z := 60 * 1000.

Definition leaseTaken : error := Reason "Lease already taken, try later.".

(** The two [new Date()] of [shouldSendWithLease]: the one compared with
    the lease (read only when the document exists) and the one the new
    lease is computed from. *)
Record clock := { checked : Z; stamped : Z }.

(** The callback of [shouldSendWithLease], for a lease of [leaseDuration]
    milliseconds. *)
Definition leaseUpdate (leaseDuration : Z) (emailRef : string) (clk : clock)
  (snapshot : firestore) : attempt bool :=
  let emailDoc := sentEmails snapshot !! emailRef in
  if existsAndSent emailDoc then
    {| outcome := Fulfilled false; queued := []; logged := [] |}
  else if existsAndLeased (checked clk) emailDoc then
    {| outcome := Rejected leaseTaken; queued := []; logged := [] |}
  else
    {| outcome := Fulfilled true;
       queued := [SetEmail emailRef
                    {| sent := None; lease := Some (stamped clk + leaseDuration) |}];
       logged := [] |}.

Definition shouldSendWithLeaseFor (leaseDuration : Z) (emailRef : string)
  (clk : clock) : M bool :=
  runTransaction (leaseUpdate leaseDuration emailRef clk).

Definition shouldSendWithLease : string -> clock -> M bool :=
  shouldSendWithLeaseFor leaseTime.

(** [emailRef.get().then(emailDoc => !emailDoc.exists || !emailDoc.data().sent)] *)
Definition shouldSend (emailRef : string) : M bool :=
  fun w => (Fulfilled (negb (existsAndSent (sentEmails (db w) !! emailRef))), w).

(** [emailRef.set({sent: true})] *)
Definition markSent (emailRef : string) : M unit :=
  fun w =>
    (Fulfilled tt, commit (SetEmail emailRef {| sent := Some true; lease := None |}) w).

(** The three answers of the ledger, under the names the design gives
    them: [true], [false] and the rejected promise. *)
Definition ShouldRun : completion bool := Fulfilled true.
Definition AlreadyDone : completion bool := Fulfilled false.
Definition LeaseHeld : completion bool := Rejected leaseTaken.

Definition isShouldRun (r : completion bool) : bool :=
  match r with Fulfilled true => true | _ => false end.

(** The document [{lease: new Date(t)}] and the document [{sent: true}]. *)
Definition leasedUntil (t : Z) : emailDoc := {| sent := None; lease := Some t |}.
Definition sentDoc : emailDoc := {| sent := Some true; lease := None |}.

Definition emailRecord (w : world) (id : string) : option emailDoc :=
  sentEmails (db w) !! id.

(** A run of [shouldSendWithLease] calls for one identifier, one
    transaction after the other. *)
Fixpoint decideAll (leaseDuration : Z) (id : string) (calls : list clock)
  (w : world) : list (completion bool) * world :=
  match calls with
  | [] => ([], w)
  | clk :: rest =>
      let (r, w1) := shouldSendWithLeaseFor leaseDuration id clk w in
      let (rs, w2) := decideAll leaseDuration id rest w1 in
      (r :: rs, w2)
  end.

(** The expiry written by the first call of a run that answered
    [ShouldRun]. *)
Fixpoint firstLease (leaseDuration : Z) (calls : list clock)
  (rs : list (completion bool)) : option Z :=
  match calls, rs with
  | clk :: calls', r :: rs' =>
      if isShouldRun r then Some (stamped clk + leaseDuration)
      else firstLease leaseDuration calls' rs'
  | _, _ => None
  end.

(** Ledger operations on any identifiers, in any order. *)
Inductive ledgerOp :=
| Decide (leaseDuration : Z) (id : string) (clk : clock)
| MarkDone (id : string).

Inductive ledgerResult :=
| Decided (r : completion bool)
| Marked.

Definition runOp (op : ledgerOp) (w : world) : ledgerResult * world :=
  match op with
  | Decide leaseDuration id clk =>
      let (r, w') := shouldSendWithLeaseFor leaseDuration id clk w in (Decided r, w')
  | MarkDone id => (Marked, (markSent id w).2)
  end.

Fixpoint runOps (ops : list ledgerOp) (w : world) : list ledgerResult * world :=
  match ops with
  | [] => ([], w)
  | op :: rest =>
      let (r, w1) := runOp op w in
      let (rs, w2) := runOps rest w1 in
      (r :: rs, w2)
  end.

Definition isDone (w : world) (id : string) : bool :=
  existsAndSent (emailRecord w id).

(** ** Requests to the services *)

(** The answer of a called service: a 2xx response with its body, of the
    shape the services of this repository send, or another status. *)
Inductive response (A : Type) :=
| Success (body : A)
| Failure (status : Z) (msg : string).
Arguments Success {A} body.
Arguments Failure {A} status msg.

(** [request({method, uri, body, json: true})] of [request-promise]: the
    promise is fulfilled with the body of a 2xx response and rejected
    otherwise. *)
Definition request {A} (method uri : string) (body : option json)
  (res : response A) : M A :=
  emit (Request method uri body) ;;
  match res with
  | Success b => ret b
  | Failure status _ => reject (StatusCodeError status)
  end.

(** The simulated services.  [lucky] is the outcome of
    [Math.random() < successRatio], [pick] the index [randomItem] draws. *)
Definition flaky (lucky : bool) : response string :=
  if lucky then Success "Flaky service succeeded!"
  else Failure 500 "Flaky service failed.".

Definition cooks : list string :=
  ["John"; "Patricia"; "Mike"; "Linda"; "Steve"; "Katie"].

(** The body [{cook: ...}] of a [chooseCook] response. *)
Record chosen := { cook : string }.

Definition chooseCook (lucky : bool) (pick : nat) : response chosen :=
  if lucky then Success {| cook := default "" (cooks !! (pick `mod` length cooks)%nat) |}
  else Failure 500 "Transient failure from chooseCook.".

Definition prepareMeal (lucky : bool) : response string :=
  if lucky then Success "Cook successfully notified to prepare a meal."
  else Failure 500 "Transient failure from prepareMeal.".

(** ** Documents outside transactions *)

(** Firestore accepts only a plain object as document data, and throws
    on anything else before it returns a promise. *)
Definition isPlainObject (content : json) : bool :=
  match content with JObj _ => true | _ => false end.

(** [db.collection('contents').doc(docId).set(content)] *)
Definition setContent (docId : string) (content : json) : M unit :=
  if isPlainObject content then
    fun w => (Fulfilled tt, commit (SetContent docId content) w)
  else throw InvalidDocument.

(** [db.collection('contents').add(content)]: a create under the id
    [autoId] that Firestore generates. *)
Definition addContent (autoId : string) (content : json) : M unit :=
  if isPlainObject content then
    fun w =>
      match contents (db w) !! autoId with
      | None => (Fulfilled tt, commit (SetContent autoId content) w)
      | Some _ => (Rejected AlreadyExists, w)
      end
  else throw InvalidDocument.

(** [db.collection(collection).add(order)] *)
Definition addOrder (collection autoId : string) (o : order) : M unit :=
  fun w =>
    match collectionDocs collection (db w) !! autoId with
    | None => (Fulfilled tt, commit (SetOrder collection autoId o) w)
    | Some _ => (Rejected AlreadyExists, w)
    end.

(** ** JavaScript expressions on strings and objects *)

(** [v || fallback] where [v] is a string or undefined: the empty string
    is falsy. *)
Definition orString (v : option string) (fallback : string) : string :=
  match v with
  | Some s => if String.eqb s "" then fallback else s
  | None => fallback
  end.

(** [v ? ... : ...] on the same values. *)
Definition truthy (v : option string) : bool :=
  match v with
  | Some s => negb (String.eqb s "")
  | None => false
  end.

(** [v[name]]: a [TypeError] on [null], the own property of an object,
    [undefined] on every other value [JSON.parse] produces. *)
Definition property (name : string) (v : json) : M (option json) :=
  match v with
  | JNull => throw TypeError
  | JObj fields => ret (snd <$> List.find (fun kv => String.eqb kv.1 name) fields)
  | _ => ret None
  end.

Definition withCook (o : order) (c : string) : order :=
  {| order_id := order_id o; order_timestamp := order_timestamp o;
     order_meal := order_meal o; order_cook := Some c |}.

(** The [order] object as a JSON request body. *)
Definition orderJson (o : order) : json :=
  JObj ([("id", JStr (order_id o)); ("timestamp", JStr (order_timestamp o));
         ("meal", JStr (order_meal o))]
        ++ match order_cook o with Some c => [("cook", JStr c)] | None => [] end).

(** ** The functions *)

Section Functions.

(** [process.env.FUNCTION_REGION] and [process.env.GCP_PROJECT], as the
    URI templates render them. *)
Variables region project : string.

(** [Buffer.from(s, 'base64').toString()] *)
Variable base64ToString : string -> string.

(** [JSON.parse]; [None] when it throws. *)
Variable JSON_parse : string -> option json.

Definition endpoint (path : string) : string :=
  "https://" +:+ region +:+ "-" +:+ project +:+ ".cloudfunctions.net" +:+ path.

(** [JSON.parse(Buffer.from(message.data || '', 'base64').toString() || '{}')] *)
Definition parseContent (message : pubsubMessage) : M json :=
  match
    JSON_parse
      (orString (Some (base64ToString (orString (data message) ""))) "{}")
  with
  | Some content => ret content
  | None => throw SyntaxError
  end.

(** *** idempotency/index.js *)

Definition nonIdempotentFirestoreFunction (ev : event) (autoId : string)
  (flakyRes : response string) : M string :=
  let message := event_data ev in
  content <~ parseContent message ;;
  andThen (addContent autoId content)
    (fun _ => request "POST" (endpoint "/flaky") (Some content) flakyRes).

Definition idempotentFirestoreFunction (ev : event)
  (flakyRes : response string) : M string :=
  let message := event_data ev in
  content <~ parseContent message ;;
  let eventId := eventId (context ev) in
  andThen (setContent eventId content)
    (fun _ =>
       request "POST" (endpoint ("/flaky/" +:+ eventId)) (Some content) flakyRes).

Definition nonIdempotentEmailFunction (ev : event)
  (flakyRes : response string) : M string :=
  let message := event_data ev in
  content <~ parseContent message ;;
  text <~ property "text" content ;;
  emit (SendEmail text) ;;
  request "POST" (endpoint "/flaky") (Some content) flakyRes.

Definition almostIdempotentEmailFunction (ev : event)
  (flakyRes : response string) : M string :=
  let message := event_data ev in
  content <~ parseContent message ;;
  let eventId := eventId (context ev) in
  let emailRef := eventId in
  andThen
    (andThen (shouldSend emailRef)
       (fun send : bool =>
          if send then
            (text <~ property "text" content ;;
             emit (SendEmail text) ;;
             markSent emailRef)
          else ret tt))
    (fun _ =>
       request "POST" (endpoint ("/flaky/" +:+ eventId)) (Some content) flakyRes).

Definition idempotentEmailFunction (ev : event) (clk : clock)
  (flakyRes : response string) : M string :=
  let message := event_data ev in
  content <~ parseContent message ;;
  let eventId := eventId (context ev) in
  let emailRef := eventId in
  andThen
    (andThen (shouldSendWithLease emailRef clk)
       (fun send : bool =>
          if send then
            (text <~ property "text" content ;;
             emit (SendEmail text) ;;
             markSent emailRef)
          else ret tt))
    (fun _ =>
       request "POST" (endpoint ("/flaky/" +:+ eventId)) (Some content) flakyRes).

(** *** retries/index.js *)

Definition pubSubFunction (ev : event) (flakyRes : response string) : M string :=
  let message := event_data ev in
  content <~ parseContent message ;;
  request "POST" (endpoint "/flaky") (Some content) flakyRes.

(** *** order-processing/index.js *)

(** The [order] literal both pipelines start from. *)
Definition newOrder (ev : event) : order :=
  let context := context ev in
  let message := event_data ev in
  {| order_id := eventId context;
     order_timestamp := timestamp context;
     order_meal :=
       if truthy (data message) then base64ToString (default "" (data message))
       else "";
     order_cook := None |}.

(** The [order] object is shared by the callbacks of the chain; the
    first callback hands the object it assigned the cook to on to the
    second. *)
Definition nonIdempotentProcessOrder (collection : string) (ev : event)
  (cookRes : response chosen) (autoId : string) (mealRes : response string)
  : M string :=
  let order := newOrder ev in
  emit (Log ("Received an order for meal " +:+ order_meal order)) ;;
  andThen
    (andThen (request "GET" (endpoint "/chooseCook/") None cookRes)
       (fun res =>
          let order := withCook order (cook res) in
          emit (Log ("Assigning cook " +:+ cook res +:+ " and storing order")) ;;
          addOrder collection autoId order ;;
          ret order))
    (fun order =>
       request "POST" (endpoint "/prepareMeal/") (Some (orderJson order)) mealRes).

Definition processOrder : event -> response chosen -> string -> response string -> M string :=
  nonIdempotentProcessOrder "incoming".

Definition processOrderRetry : event -> response chosen -> string -> response string -> M string :=
  nonIdempotentProcessOrder "incomingRetry".

(** The transaction callback of [processOrderRetryIdempotent]. *)
Definition orderUpdate (ev : event) (order : order) (res : chosen)
  (snapshot : firestore) : attempt unit :=
  let doc := eventId (context ev) in
  match collectionDocs "incomingRetryIdempotent" snapshot !! doc with
  | None =>
      let order := withCook order (cook res) in
      {| outcome := Fulfilled tt;
         queued := [SetOrder "incomingRetryIdempotent" doc order];
         logged := [Log ("Assigning cook " +:+ cook res +:+ " and storing order")] |}
  | Some _ => {| outcome := Fulfilled tt; queued := []; logged := [] |}
  end.

Definition processOrderRetryIdempotent (ev : event) (cookRes : response chosen)
  (mealRes : response string) : M string :=
  let order := newOrder ev in
  emit (Log ("Received an order for meal " +:+ order_meal order)) ;;
  andThen
    (andThen (request "GET" (endpoint "/chooseCook/") None cookRes)
       (fun res => runTransaction (orderUpdate ev order res)))
    (fun _ =>
       request "POST" (endpoint "/prepareMeal/")
         (Some (JObj [("id", JStr (order_id order))])) mealRes).

(** The effects of an attempt of [processOrderRetryIdempotent], and how
    a request ends. *)
Definition receivedEffect (ev : event) : effect :=
  Log ("Received an order for meal " +:+ order_meal (newOrder ev)).

Definition askCookEffect : effect := Request "GET" (endpoint "/chooseCook/") None.

Definition notifyCookEffect (ev : event) : effect :=
  Request "POST" (endpoint "/prepareMeal/") (Some (JObj [("id", JStr (eventId (context ev)))])).

Definition ended {A} (res : response A) : completion A :=
  match res with
  | Success body => Fulfilled body
  | Failure status _ => Rejected (StatusCodeError status)
  end.

(** One delivery of an event to [processOrderRetryIdempotent], with the
    answers the two services give during it; and a series of them. *)
Record delivery := {
  delivered : event;
  cookAnswer : response chosen;
  mealAnswer : response string
}.

Definition deliver (d : delivery) (w : world) : completion string * world :=
  processOrderRetryIdempotent (delivered d) (cookAnswer d) (mealAnswer d) w.

Definition deliverAll (ds : list delivery) (w : world) : world :=
  foldl (fun w' d => (deliver d w').2) w ds.

End Functions.

(** ** Reading the store and the trace *)

(** The committed writes of [incomingRetryIdempotent/id] in a trace. *)
Definition isOrderWrite (id : string) (e : effect) : bool :=
  match e with
  | Commit (SetOrder collection docId _) =>
      String.eqb collection "incomingRetryIdempotent" && String.eqb docId id
  | _ => false
  end.

Definition orderWrites (id : string) (tr : list effect) : list effect :=
  List.filter (isOrderWrite id) tr.

Definition orderRecord (w : world) (id : string) : option order :=
  collectionDocs "incomingRetryIdempotent" (db w) !! id.

(** The emails sent and the requests made to one address in a trace. *)
Definition isSendEmail (e : effect) : bool :=
  match e with SendEmail _ => true | _ => false end.

Definition emailsSent (tr : list effect) : nat :=
  length (List.filter isSendEmail tr).

Definition isRequestTo (method uri : string) (e : effect) : bool :=
  match e with
  | Request m u _ => String.eqb m method && String.eqb u uri
  | _ => false
  end.

Definition requestsTo (method uri : string) (tr : list effect) : nat :=
  length (List.filter (isRequestTo method uri) tr).

Definition isCommit (e : effect) : bool :=
  match e with Commit _ => true | _ => false end.

(** [content.text] on content that is not [null]. *)
Definition textOf (content : json) : option json :=
  match content with
  | JObj fields => snd <$> List.find (fun kv => String.eqb kv.1 "text") fields
  | _ => None
  end.

Definition isNull (content : json) : bool :=
  match content with JNull => true | _ => false end.

(** ** Redeliveries, the HTTP function and its caller *)

Section Redeliveries.

Variables region project : string.
Variable base64ToString : string -> string.
Variable JSON_parse : string -> option json.

(** The same event delivered again and again to one function, one
    attempt after the other; each attempt comes with what the outside
    answers during it, and leaves its world to the next. *)
Definition redeliverIdempotentEmail (ev : event)
  (answers : list (clock * response string)) (w : world) : world :=
  foldl
    (fun w' a =>
       (idempotentEmailFunction region project base64ToString JSON_parse ev a.1 a.2 w').2)
    w answers.

Definition redeliverAlmostIdempotentEmail (ev : event)
  (answers : list (response string)) (w : world) : world :=
  foldl
    (fun w' a =>
       (almostIdempotentEmailFunction region project base64ToString JSON_parse ev a w').2)
    w answers.

Definition redeliverNonIdempotentEmail (ev : event)
  (answers : list (response string)) (w : world) : world :=
  foldl
    (fun w' a =>
       (nonIdempotentEmailFunction region project base64ToString JSON_parse ev a w').2)
    w answers.

(** For the functions that add a document, each attempt also comes
    with the id Firestore generates. *)
Definition redeliverIdempotentFirestore (ev : event)
  (answers : list (response string)) (w : world) : world :=
  foldl
    (fun w' a =>
       (idempotentFirestoreFunction region project base64ToString JSON_parse ev a w').2)
    w answers.

Definition redeliverNonIdempotentFirestore (ev : event)
  (answers : list (string * response string)) (w : world) : world :=
  foldl
    (fun w' a =>
       (nonIdempotentFirestoreFunction region project base64ToString JSON_parse
          ev a.1 a.2 w').2)
    w answers.

Definition redeliverNonIdempotentOrder (collection : string) (ev : event)
  (answers : list (string * (response chosen * response string))) (w : world)
  : world :=
  foldl
    (fun w' a =>
       (nonIdempotentProcessOrder region project base64ToString collection
          ev a.2.1 a.1 a.2.2 w').2)
    w answers.

Definition redeliverOrder (ev : event)
  (answers : list (response chosen * response string)) (w : world) : world :=
  deliverAll region project base64ToString
    (map (fun a => {| delivered := ev; cookAnswer := a.1; mealAnswer := a.2 |}) answers)
    w.

(** *** retries/index.js, [httpFunction] *)

(** [res.status(statusCode).send(text)] *)
Record httpResponse := { statusCode : Z; text : string }.

(** The body of the request is [req.body] ([None] when there is none);
    the promise chain ends in [.catch], so the function answers whatever
    the flaky service does. *)
Definition httpFunction (reqBody : option json) (flakyRes : response string)
  (w : world) : httpResponse * world :=
  match request "POST" (endpoint region project "/flaky") reqBody flakyRes w with
  | (Fulfilled apiRes, w') =>
      ({| statusCode := 200; text := "HTTP function succeeded!" |}, w')
  | (Rejected err, w') | (Thrown err, w') =>
      ({| statusCode := 500; text := "HTTP function failed." |}, w')
  end.

(** *** retries/caller.js *)

(** What [request-promise] makes of an HTTP response. *)
Definition received (r : httpResponse) : response string :=
  if (200 <=? statusCode r) && (statusCode r <? 300) then Success (text r)
  else Failure (statusCode r) (text r).

(** What the script prints and sends, in order. *)
Inductive callerEvent :=
| Calling
  (** [console.log(`Calling httpFunction in project ...`)] *)
| Attempt (number : nat)
  (** [console.log(`Attempt number ${number}.`)] *)
| Post (uri : string) (body : json)
| Succeeded (res : string)
  (** [console.log(`Success! ${res}`)] *)
| Failed (err : error)
  (** [console.log(`Failure. ${err}`)] *).

(** The operation [promiseRetry] runs, from attempt [number] on with
    [retries] retries left; [answer n] is the response to the request of
    attempt [n].  [.catch(retry)] runs the operation again while retries
    are left and rejects with the error of the last attempt otherwise. *)
Fixpoint attemptsFrom (retries number : nat) (answer : nat -> response string)
  : list callerEvent * completion string :=
  let sent :=
    [Attempt number;
     Post (endpoint region project "/httpFunction") (JObj [("foo", JStr "bar")])] in
  match answer number with
  | Success res => (sent, Fulfilled res)
  | Failure status _ =>
      match retries with
      | O => (sent, Rejected (StatusCodeError status))
      | S retries' =>
          let (rest, r) := attemptsFrom retries' (S number) answer in
          (sent ++ rest, r)
      end
  end.

(** [promiseRetry({retries: 10, ...}, ...)]: attempts are numbered from 1. *)
Definition promiseRetry (answer : nat -> response string)
  : list callerEvent * completion string :=
  attemptsFrom 10 1 answer.

Definition caller (answer : nat -> response string) : list callerEvent :=
  let (sent, r) := promiseRetry answer in
  Calling :: sent
  ++ [match r with
      | Fulfilled res => Succeeded res
      | Rejected err | Thrown err => Failed err
      end].

End Redeliveries.

Definition isPost (e : callerEvent) : bool :=
  match e with Post _ _ => true | _ => false end.

Definition posts (evs : list callerEvent) : nat :=
  length (List.filter isPost evs).

Definition isSuccess {A} (r : response A) : bool :=
  match r with Success _ => true | Failure _ _ => false end.

(** The identifier a ledger operation is about. *)
Definition opId (op : ledgerOp) : string :=
  match op with
  | Decide _ id _ => id
  | MarkDone id => id
  end.

(** The orders that attempts with these answers store under the ids
    Firestore generates: one for each answer of [chooseCook] that is a
    success. *)
Definition storedOrders (o : order)
  (answers : list (string * (response chosen * response string)))
  : list (string * order) :=
  omap
    (fun a =>
       match a.2.1 with
       | Success res => Some (a.1, withCook o (cook res))
       | Failure _ _ => None
       end)
    answers.

(** The cook of the first answer of [chooseCook] that is a success. *)
Fixpoint firstChosen (answers : list (response chosen * response string))
  : option chosen :=
  match answers with
  | [] => None
  | (Success res, _) :: _ => Some res
  | (Failure _ _, _) :: rest => firstChosen rest
  end.

(** ** Sample inputs

    A region, a project, and the two library functions on the few texts
    the examples below use: the base64 texts of [{}], [null] and [pizza],
    and the JSON texts [{}] and [null]. *)

Definition sampleRegion : string := "us-central1".
Definition sampleProject : string := "my-project".

Definition sampleBase64ToString (s : string) : string :=
  if String.eqb s "e30=" then "{}"
  else if String.eqb s "bnVsbA==" then "null"
  else if String.eqb s "cGl6emE=" then "pizza"
  else "".

Definition sampleParse (s : string) : option json :=
  if String.eqb s "{}" then Some (JObj [])
  else if String.eqb s "null" then Some JNull
  else None.

Definition emptyWorld : world := {| db := emptyStore; trace := [] |}.

(** The event [e1] without a payload, and with the payload [pizza]. *)
Definition bareEvent : event :=
  {| event_data := {| data := None |};
     context := {| eventId := "e1"; timestamp := "2018-05-01T10:00:00.000Z" |} |}.

Definition pizzaEvent : event :=
  {| event_data := {| data := Some "cGl6emE=" |};
     context := {| eventId := "e1"; timestamp := "2018-05-01T10:00:00.000Z" |} |}.

(** [sentEmails/e1] holds a lease that runs out at 100; holds [{sent: true}]. *)
Definition leasedWorld : world :=
  {| db := applyWrite emptyStore (SetEmail "e1" (leasedUntil 100)); trace := [] |}.

Definition sentWorld : world :=
  {| db := applyWrite emptyStore (SetEmail "e1" sentDoc); trace := [] |}.

(** [contents/e1] holds [{value: 1}]. *)
Definition storedWorld : world :=
  {| db := applyWrite emptyStore (SetContent "e1" (JObj [("value", JNum 1)]));
     trace := [] |}.

(** [incomingRetryIdempotent/e1] holds the pizza order, assigned to John. *)
Definition johnsOrder : order :=
  {| order_id := "e1"; order_timestamp := "2018-05-01T10:00:00.000Z";
     order_meal := "pizza"; order_cook := Some "John" |}.

Definition orderedWorld : world :=
  {| db := applyWrite emptyStore (SetOrder "incomingRetryIdempotent" "e1" johnsOrder);
     trace := [] |}.

Definition at50 : clock := {| checked := 50; stamped := 50 |}.

(** Three calls: the second within the lease the first takes, the third
    at the instant that lease runs out. *)
Definition threeCalls : list clock :=
  [{| checked := 5; stamped := 5 |}; {| checked := 60004; stamped := 60004 |};
   {| checked := 60005; stamped := 60006 |}].

(** The event [e2] whose payload is the base64 text of [null]. *)
Definition nullEvent : event :=
  {| event_data := {| data := Some "bnVsbA==" |};
     context := {| eventId := "e2"; timestamp := "2018-05-01T10:00:01.000Z" |} |}.

(** Answers to three deliveries of an order: [chooseCook] fails, then
    picks Mike, then Steve; only the last notification succeeds. *)
Definition cookAnswers : list (response chosen * response string) :=
  [(chooseCook false 0, prepareMeal true); (chooseCook true 2, prepareMeal false);
   (chooseCook true 4, prepareMeal true)].

(** Two more deliveries of the pizza order: [chooseCook] picks Mike, then
    Steve; the first notification fails. *)
Definition redeliveries : list delivery :=
  [{| delivered := pizzaEvent; cookAnswer := chooseCook true 2;
      mealAnswer := prepareMeal false |};
   {| delivered := pizzaEvent; cookAnswer := chooseCook true 4;
      mealAnswer := prepareMeal true |}].

(** * Properties *)

(** ** One call of [shouldSendWithLease] *)

Lemma decide_unseen leaseDuration id clk w :
  emailRecord w id = None ->
  shouldSendWithLeaseFor leaseDuration id clk w
  = (ShouldRun, commit (SetEmail id (leasedUntil (stamped clk + leaseDuration))) w).
Proof.
  unfold emailRecord, shouldSendWithLeaseFor, runTransaction, leaseUpdate.
  intros ->. simpl. rewrite app_nil_r. by destruct w.
Qed.

Lemma decide_done leaseDuration id clk w :
  isDone w id = true ->
  shouldSendWithLeaseFor leaseDuration id clk w = (AlreadyDone, w).
Proof.
  unfold isDone, emailRecord, shouldSendWithLeaseFor, runTransaction, leaseUpdate.
  intros ->. simpl. rewrite app_nil_r. by destruct w.
Qed.

Lemma decide_held leaseDuration id clk w :
  isDone w id = false ->
  existsAndLeased (checked clk) (emailRecord w id) = true ->
  shouldSendWithLeaseFor leaseDuration id clk w = (LeaseHeld, w).
Proof.
  unfold isDone, emailRecord, shouldSendWithLeaseFor, runTransaction, leaseUpdate.
  intros -> ->. simpl. rewrite app_nil_r. by destruct w.
Qed.

Lemma decide_free leaseDuration id clk w :
  isDone w id = false ->
  existsAndLeased (checked clk) (emailRecord w id) = false ->
  shouldSendWithLeaseFor leaseDuration id clk w
  = (ShouldRun, commit (SetEmail id (leasedUntil (stamped clk + leaseDuration))) w).
Proof.
  unfold isDone, emailRecord, shouldSendWithLeaseFor, runTransaction, leaseUpdate.
  intros -> ->. simpl. rewrite app_nil_r. by destruct w.
Qed.

Lemma emailRecord_commit_eq id doc w :
  emailRecord (commit (SetEmail id doc) w) id = Some doc.
Proof. unfold emailRecord. simpl. apply lookup_insert_eq. Qed.

Lemma emailRecord_commit_ne id id' doc w :
  id <> id' -> emailRecord (commit (SetEmail id doc) w) id' = emailRecord w id'.
Proof. intros Hne. unfold emailRecord. simpl. by apply lookup_insert_ne. Qed.

(** A call either answers [ShouldRun] and writes the new lease, or
    answers something else and leaves the world as it was. *)
Lemma decide_cases leaseDuration id clk w :
  (shouldSendWithLeaseFor leaseDuration id clk w
   = (ShouldRun, commit (SetEmail id (leasedUntil (stamped clk + leaseDuration))) w)
   /\ isDone w id = false
   /\ existsAndLeased (checked clk) (emailRecord w id) = false)
  \/ (shouldSendWithLeaseFor leaseDuration id clk w = (AlreadyDone, w)
      /\ isDone w id = true)
  \/ (shouldSendWithLeaseFor leaseDuration id clk w = (LeaseHeld, w)
      /\ isDone w id = false
      /\ existsAndLeased (checked clk) (emailRecord w id) = true).
Proof.
  destruct (isDone w id) eqn:Hd.
  - right; left. split; [by apply decide_done | done].
  - destruct (existsAndLeased (checked clk) (emailRecord w id)) eqn:Hl.
    + right; right. split; [by apply decide_held | done].
    + left. split; [by apply decide_free | done].
Qed.

(** C1.  The four cases of the ledger's decision.  [checked clk] is the
    time the lease is compared with and [stamped clk] the time the new
    lease is computed from; for a transaction that runs at one instant
    [now] both are [now].
    - No record for [id]: the record [{lease: now + L}] is written and the
      answer is [ShouldRun] ([true]).
    - The record is sent: the answer is [AlreadyDone] ([false]) and nothing
      is written.
    - The record is not sent and its lease is later than [now]: the promise
      is rejected ([LeaseHeld]) and nothing is written.
    - The record is not sent and its lease is at or before [now]: the
      record [{lease: now + L}] is written and the answer is [ShouldRun]. *)
Theorem shouldSendWithLease_contract (leaseDuration : Z) (id : string)
  (clk : clock) (w : world) :
  (emailRecord w id = None ->
   shouldSendWithLeaseFor leaseDuration id clk w
   = (ShouldRun, commit (SetEmail id (leasedUntil (stamped clk + leaseDuration))) w))
  /\ (forall d, emailRecord w id = Some d -> sent d = Some true ->
      shouldSendWithLeaseFor leaseDuration id clk w = (AlreadyDone, w))
  /\ (forall d leaseExpiry,
      emailRecord w id = Some d -> sent d <> Some true ->
      lease d = Some leaseExpiry -> checked clk < leaseExpiry ->
      shouldSendWithLeaseFor leaseDuration id clk w = (LeaseHeld, w))
  /\ (forall d leaseExpiry,
      emailRecord w id = Some d -> sent d <> Some true ->
      lease d = Some leaseExpiry -> leaseExpiry <= checked clk ->
      shouldSendWithLeaseFor leaseDuration id clk w
      = (ShouldRun, commit (SetEmail id (leasedUntil (stamped clk + leaseDuration))) w)).
Proof.
  repeat split.
  - apply decide_unseen.
  - intros d Hd Hs. apply decide_done. unfold isDone. by rewrite Hd; simpl; rewrite Hs.
  - intros d e Hd Hs Hl Hlt. apply decide_held; unfold isDone; rewrite Hd; simpl.
    + destruct (sent d) as [[]|]; congruence.
    + rewrite Hl. by apply Z.ltb_lt.
  - intros d e Hd Hs Hl Hle. apply decide_free; unfold isDone; rewrite Hd; simpl.
    + destruct (sent d) as [[]|]; congruence.
    + rewrite Hl. apply Z.ltb_ge. lia.
Qed.

(** C7.  On a record that is leased and not sent, a call whose clock reads
    exactly the lease expiry takes the lease again and answers
    [ShouldRun]; the call is rejected exactly when the clock reads a time
    strictly before the expiry. *)
Theorem lease_boundary (leaseDuration : Z) (id : string) (clk : clock)
  (w : world) (d : emailDoc) (leaseExpiry : Z) :
  emailRecord w id = Some d ->
  sent d <> Some true ->
  lease d = Some leaseExpiry ->
  (checked clk = leaseExpiry ->
   shouldSendWithLeaseFor leaseDuration id clk w
   = (ShouldRun, commit (SetEmail id (leasedUntil (stamped clk + leaseDuration))) w))
  /\ ((shouldSendWithLeaseFor leaseDuration id clk w).1 = LeaseHeld
      <-> checked clk < leaseExpiry).
Proof.
  intros Hd Hs Hl.
  assert (Hnd : isDone w id = false).
  { unfold isDone. rewrite Hd. simpl. destruct (sent d) as [[]|]; congruence. }
  assert (Hlv : existsAndLeased (checked clk) (emailRecord w id)
                = (checked clk <? leaseExpiry)).
  { rewrite Hd. simpl. by rewrite Hl. }
  split.
  - intros Heq. apply decide_free; [done|]. rewrite Hlv. apply Z.ltb_ge. lia.
  - destruct (Z.ltb_spec (checked clk) leaseExpiry) as [Hlt|Hge].
    + rewrite decide_held; [done|done|by rewrite Hlv].
    + rewrite decide_free; [|done|by rewrite Hlv]. simpl. split; [discriminate|lia].
Qed.

Lemma lease_boundary_witness :
  shouldSendWithLeaseFor leaseTime "e1" {| checked := 100; stamped := 100 |} leasedWorld
  = (ShouldRun, commit (SetEmail "e1" (leasedUntil 60100)) leasedWorld).
Proof.
  refine (proj1 (lease_boundary leaseTime "e1" {| checked := 100; stamped := 100 |}
                   leasedWorld (leasedUntil 100) 100 _ _ _) _).
  - reflexivity.
  - discriminate.
  - reflexivity.
  - reflexivity.
Defined.

(** ** Runs of calls within and across lease windows *)

Lemma decideAll_held leaseDuration id calls w leaseExpiry :
  emailRecord w id = Some (leasedUntil leaseExpiry) ->
  Forall (fun clk => checked clk < leaseExpiry) calls ->
  decideAll leaseDuration id calls w = (replicate (length calls) LeaseHeld, w).
Proof.
  intros Hrec. induction 1 as [|clk calls Hlt _ IH]; [done|].
  simpl. rewrite decide_held, IH; [done| |].
  - unfold isDone. by rewrite Hrec.
  - rewrite Hrec. simpl. by apply Z.ltb_lt.
Qed.

Lemma decideAll_done leaseDuration id calls w :
  isDone w id = true ->
  decideAll leaseDuration id calls w = (replicate (length calls) AlreadyDone, w).
Proof.
  intros Hd. induction calls as [|clk calls IH]; [done|].
  simpl. by rewrite decide_done, IH.
Qed.

Lemma firstLease_replicate leaseDuration calls r :
  isShouldRun r = false ->
  firstLease leaseDuration calls (replicate (length calls) r) = None.
Proof.
  intros Hr. induction calls as [|clk calls IH]; [done|].
  simpl. by rewrite Hr.
Qed.

(** Every call within the window of the first [ShouldRun] but that one
    is rejected. *)
Lemma decideAll_window leaseDuration id calls w leaseExpiry :
  firstLease leaseDuration calls (decideAll leaseDuration id calls w).1 = Some leaseExpiry ->
  Forall (fun clk => checked clk < leaseExpiry) calls ->
  exists k : nat,
    (k < length calls)%nat
    /\ (decideAll leaseDuration id calls w).1
       = replicate k LeaseHeld ++ ShouldRun :: replicate (length calls - S k) LeaseHeld.
Proof.
  revert w. induction calls as [|clk calls IH]; intros w Hfirst Hall; [done|].
  apply Forall_cons in Hall as [Hclk Hall].
  simpl in Hfirst |- *.
  destruct (decide_cases leaseDuration id clk w)
    as [(Hrun & _ & _) | [(Hrun & Hd) | (Hrun & _ & _)]]; rewrite Hrun in Hfirst |- *.
  - (* the first call takes the lease; the others find it live *)
    set (w1 := commit _ w) in *.
    assert (Hrec : emailRecord w1 id = Some (leasedUntil (stamped clk + leaseDuration)))
      by apply emailRecord_commit_eq.
    destruct (decideAll leaseDuration id calls w1) as [rs w2] eqn:Hrest.
    simpl in Hfirst. injection Hfirst as <-.
    rewrite (decideAll_held _ _ _ _ _ Hrec Hall) in Hrest. injection Hrest as <- <-.
    exists 0%nat. split; [simpl; lia|]. simpl. by rewrite Nat.sub_0_r.
  - (* a sent record answers [AlreadyDone] for ever: no first lease *)
    rewrite (decideAll_done _ _ _ _ Hd) in Hfirst. simpl in Hfirst.
    by rewrite firstLease_replicate in Hfirst.
  - (* rejected: the world is as before *)
    specialize (IH w).
    destruct (decideAll leaseDuration id calls w) as [rs w2] eqn:Hrest.
    simpl in Hfirst, IH |- *.
    destruct (IH Hfirst Hall) as (k & Hk & ->).
    exists (S k). split; [lia|]. done.
Qed.

(** The first [ShouldRun] of a run finds no live lease in the record the
    run started from. *)
Lemma firstShouldRun_expired leaseDuration id calls w (j : nat) cj :
  calls !! j = Some cj ->
  (decideAll leaseDuration id calls w).1 !! j = Some ShouldRun ->
  (forall k : nat, (k < j)%nat ->
     (decideAll leaseDuration id calls w).1 !! k <> Some ShouldRun) ->
  existsAndLeased (checked cj) (emailRecord w id) = false.
Proof.
  revert w j. induction calls as [|clk calls IH]; intros w j Hc Hr Hbefore; [done|].
  simpl in Hr, Hbefore.
  destruct (shouldSendWithLeaseFor leaseDuration id clk w) as [r w1] eqn:Hrun.
  destruct (decideAll leaseDuration id calls w1) as [rs w2] eqn:Hrest.
  destruct j as [|j]; simpl in Hc, Hr.
  - injection Hc as ->. injection Hr as ->.
    destruct (decide_cases leaseDuration id cj w)
      as [(_ & _ & Hl) | [(Hrun' & _) | (Hrun' & _ & _)]]; [done| |];
      rewrite Hrun' in Hrun; discriminate.
  - assert (Hr0 : r <> ShouldRun).
    { intros ->. by apply (Hbefore 0%nat); [lia|]. }
    assert (w1 = w) as ->.
    { destruct (decide_cases leaseDuration id clk w)
        as [(Hrun' & _ & _) | [(Hrun' & _) | (Hrun' & _ & _)]];
        rewrite Hrun' in Hrun; injection Hrun as <- <-; [done|done|done]. }
    apply (IH w j); [done|by rewrite Hrest|].
    intros k Hk. rewrite Hrest. simpl. apply (Hbefore (S k)). lia.
Qed.

(** Between two consecutive [ShouldRun] answers the lease of the first
    has run out. *)
Lemma consecutive_ShouldRun leaseDuration id calls w (i j : nat) ci cj :
  (i < j)%nat ->
  calls !! i = Some ci -> calls !! j = Some cj ->
  (decideAll leaseDuration id calls w).1 !! i = Some ShouldRun ->
  (decideAll leaseDuration id calls w).1 !! j = Some ShouldRun ->
  (forall k : nat, (i < k < j)%nat ->
     (decideAll leaseDuration id calls w).1 !! k <> Some ShouldRun) ->
  stamped ci + leaseDuration <= checked cj.
Proof.
  revert w i j. induction calls as [|clk calls IH]; intros w i j Hij Hci Hcj Hi Hj Hmid; [done|].
  simpl in Hi, Hj, Hmid.
  destruct (shouldSendWithLeaseFor leaseDuration id clk w) as [r w1] eqn:Hrun.
  destruct (decideAll leaseDuration id calls w1) as [rs w2] eqn:Hrest.
  destruct j as [|j]; [lia|]. simpl in Hcj, Hj.
  destruct i as [|i]; simpl in Hci, Hi.
  - injection Hci as ->. injection Hi as ->.
    assert (Hw1 : emailRecord w1 id = Some (leasedUntil (stamped ci + leaseDuration))).
    { destruct (decide_cases leaseDuration id ci w)
        as [(Hrun' & _ & _) | [(Hrun' & _) | (Hrun' & _ & _)]];
        rewrite Hrun' in Hrun; try discriminate.
      injection Hrun as <-. apply emailRecord_commit_eq. }
    assert (Hl : existsAndLeased (checked cj) (emailRecord w1 id) = false).
    { apply (firstShouldRun_expired leaseDuration id calls w1 j cj); [done|by rewrite Hrest|].
      intros k Hk. rewrite Hrest. simpl. apply (Hmid (S k)). lia. }
    rewrite Hw1 in Hl. simpl in Hl. apply Z.ltb_ge in Hl. lia.
  - apply (IH w1 i j); [lia|done|done|by rewrite Hrest|by rewrite Hrest|].
    intros k Hk. rewrite Hrest. simpl. apply (Hmid (S k)). lia.
Qed.

(** C2.  Take any run of [shouldSendWithLease] calls for one identifier,
    one transaction after the other and no [markSent] in between.
    - If every call's clock reads a time before the expiry written by the
      first call that answered [ShouldRun], that call is the only one that
      answers [ShouldRun]; each of the others is rejected with
      [LeaseHeld].
    - In any run, two [ShouldRun] answers with none in between are a lease
      apart: the later call's clock reads no earlier than the expiry the
      earlier one wrote, so no two calls hold a live lease at a time. *)
Theorem one_ShouldRun_per_lease (leaseDuration : Z) (id : string)
  (calls : list clock) (w : world) :
  (forall leaseExpiry,
     firstLease leaseDuration calls (decideAll leaseDuration id calls w).1 = Some leaseExpiry ->
     Forall (fun clk => checked clk < leaseExpiry) calls ->
     exists k : nat,
       (k < length calls)%nat
       /\ (decideAll leaseDuration id calls w).1
          = replicate k LeaseHeld ++ ShouldRun :: replicate (length calls - S k) LeaseHeld)
  /\ (forall (i j : nat) ci cj,
        (i < j)%nat ->
        calls !! i = Some ci -> calls !! j = Some cj ->
        (decideAll leaseDuration id calls w).1 !! i = Some ShouldRun ->
        (decideAll leaseDuration id calls w).1 !! j = Some ShouldRun ->
        (forall k : nat, (i < k < j)%nat ->
           (decideAll leaseDuration id calls w).1 !! k <> Some ShouldRun) ->
        stamped ci + leaseDuration <= checked cj).
Proof.
  split.
  - intros leaseExpiry. apply decideAll_window.
  - intros i j ci cj. apply consecutive_ShouldRun.
Qed.

(** ** Sent records *)

Lemma isDone_sentDoc w id : emailRecord w id = Some sentDoc -> isDone w id = true.
Proof. unfold isDone. by intros ->. Qed.

Lemma markSent_record id w : emailRecord (markSent id w).2 id = Some sentDoc.
Proof. apply emailRecord_commit_eq. Qed.

(** No operation on another identifier touches the record of [id]; an
    operation on [id] finds it sent and keeps it so. *)
Lemma runOp_done id op w :
  isDone w id = true -> isDone (runOp op w).2 id = true.
Proof.
  intros Hd. destruct op as [leaseDuration id' clk | id']; simpl.
  - destruct (decide_cases leaseDuration id' clk w)
      as [(Hrun & Hd' & _) | [(Hrun & _) | (Hrun & _ & _)]]; rewrite Hrun; simpl; [|done|done].
    destruct (decide (id' = id)) as [->|Hne]; [congruence|].
    unfold isDone. by rewrite emailRecord_commit_ne.
  - destruct (decide (id' = id)) as [->|Hne].
    + apply isDone_sentDoc, emailRecord_commit_eq.
    + unfold isDone. by rewrite emailRecord_commit_ne.
Qed.

Lemma runOp_sentDoc id op w :
  emailRecord w id = Some sentDoc -> emailRecord (runOp op w).2 id = Some sentDoc.
Proof.
  intros Hrec. pose proof (isDone_sentDoc _ _ Hrec) as Hd.
  destruct op as [leaseDuration id' clk | id']; simpl.
  - destruct (decide_cases leaseDuration id' clk w)
      as [(Hrun & Hd' & _) | [(Hrun & _) | (Hrun & _ & _)]]; rewrite Hrun; simpl; [|done|done].
    destruct (decide (id' = id)) as [->|Hne]; [congruence|].
    by rewrite emailRecord_commit_ne.
  - destruct (decide (id' = id)) as [->|Hne].
    + apply emailRecord_commit_eq.
    + by rewrite emailRecord_commit_ne.
Qed.

Lemma runOps_done id ops w :
  isDone w id = true ->
  isDone (runOps ops w).2 id = true
  /\ (forall (k : nat) leaseDuration clk,
        ops !! k = Some (Decide leaseDuration id clk) ->
        (runOps ops w).1 !! k = Some (Decided AlreadyDone)).
Proof.
  revert w. induction ops as [|op ops IH]; intros w Hd; [done|].
  simpl. pose proof (runOp_done id op w Hd) as Hd1.
  destruct (runOp op w) as [r w1] eqn:Hop. simpl in Hd1.
  destruct (IH w1 Hd1) as [IHd IHr].
  destruct (runOps ops w1) as [rs w2]. simpl in *.
  split; [done|]. intros [|k] leaseDuration clk Hk; simpl in *.
  - injection Hk as ->. simpl in Hop. rewrite decide_done in Hop by done.
    by injection Hop as <- _.
  - by eapply IHr.
Qed.

Lemma runOps_sentDoc id ops w :
  emailRecord w id = Some sentDoc -> emailRecord (runOps ops w).2 id = Some sentDoc.
Proof.
  revert w. induction ops as [|op ops IH]; intros w Hrec; [done|].
  simpl. pose proof (runOp_sentDoc id op w Hrec) as Hrec1.
  destruct (runOp op w) as [r w1]. specialize (IH w1 Hrec1).
  by destruct (runOps ops w1).
Qed.

(** C3.  A sent record stays sent.  After [markSent] for [id], whatever
    [shouldSendWithLease] and [markSent] calls follow, on any identifiers,
    at any time and for any lease duration: the record of [id] is still
    [{sent: true}], and every [shouldSendWithLease] for [id] among them
    answered [AlreadyDone].  Such a call leaves the whole world as it was.
    And from any world whose record of [id] is sent, every run of such
    calls ends in a world where it is sent. *)
Theorem done_is_absorbing (id : string) (w : world) (ops : list ledgerOp) :
  let w0 := (markSent id w).2 in
  emailRecord (runOps ops w0).2 id = Some sentDoc
  /\ (forall (k : nat) leaseDuration clk,
        ops !! k = Some (Decide leaseDuration id clk) ->
        (runOps ops w0).1 !! k = Some (Decided AlreadyDone))
  /\ (forall leaseDuration clk w1,
        isDone w1 id = true ->
        shouldSendWithLeaseFor leaseDuration id clk w1 = (AlreadyDone, w1))
  /\ (forall w1, isDone w1 id = true -> isDone (runOps ops w1).2 id = true).
Proof.
  intros w0. pose proof (markSent_record id w) as Hrec. fold w0 in Hrec.
  repeat split.
  - by apply runOps_sentDoc.
  - by apply runOps_done, isDone_sentDoc.
  - intros leaseDuration clk w1. apply decide_done.
  - intros w1 Hd. by apply runOps_done.
Qed.

(** ** The email function behind the lease *)

Section EmailProperties.

Variables region project : string.
Variable base64ToString : string -> string.
Variable JSON_parse : string -> option json.

Local Abbreviation parse := (parseContent base64ToString JSON_parse).
Local Abbreviation uri := (endpoint region project).
Local Abbreviation emailFunction :=
  (idempotentEmailFunction region project base64ToString JSON_parse).

(** A request never throws. *)
Lemma callback_request {A} method target body (res : response A) w :
  callback (request method target body res) w = request method target body res w.
Proof. by destruct res. Qed.

(** What the function does once the content is parsed and the ledger
    has answered. *)
Lemma idempotentEmailFunction_answered ev clk flakyRes w content r w1 :
  parse (event_data ev) w = (Fulfilled content, w) ->
  shouldSendWithLease (eventId (context ev)) clk w = (r, w1) ->
  emailFunction ev clk flakyRes w
  = match r with
    | Fulfilled false =>
        request "POST" (uri ("/flaky/" +:+ eventId (context ev)))
          (Some content) flakyRes w1
    | Fulfilled true =>
        andThen
          (callback (text <~ property "text" content ;;
                     emit (SendEmail text) ;;
                     markSent (eventId (context ev))))
          (fun _ =>
             request "POST" (uri ("/flaky/" +:+ eventId (context ev)))
               (Some content) flakyRes) w1
    | Rejected e => (Rejected e, w1)
    | Thrown e => (Thrown e, w1)
    end.
Proof.
  intros Hparse Hrun.
  unfold idempotentEmailFunction, andThen, bind at 1.
  rewrite Hparse. unfold bind at 1. unfold bind at 1. rewrite Hrun.
  destruct r as [[]| |]; try done.
  unfold callback at 1, ret. by rewrite callback_request.
Qed.

(** C4, as the code has it.  When the ledger answers [AlreadyDone] for
    the event's identifier, the attempt sends no email and writes
    nothing to the store, and it still posts the content to the flaky
    service, under the event id as idempotency key: that request is the
    one effect of the attempt, and the attempt ends as the request
    does. *)
Theorem alreadyDone_skips_email_only (ev : event) (clk : clock)
  (flakyRes : response string) (w : world) (content : json) :
  parse (event_data ev) w = (Fulfilled content, w) ->
  (shouldSendWithLease (eventId (context ev)) clk w).1 = AlreadyDone ->
  emailFunction ev clk flakyRes w
  = (match flakyRes with
     | Success body => Fulfilled body
     | Failure status _ => Rejected (StatusCodeError status)
     end,
     {| db := db w;
        trace := trace w
                 ++ [Request "POST" (uri ("/flaky/" +:+ eventId (context ev)))
                       (Some content)] |}).
Proof.
  intros Hparse Hanswer.
  assert (Hrun : shouldSendWithLease (eventId (context ev)) clk w = (AlreadyDone, w)).
  { unfold shouldSendWithLease in *.
    destruct (decide_cases leaseTime (eventId (context ev)) clk w)
      as [(Hrun & _ & _) | [(Hrun & _) | (Hrun & _ & _)]];
      rewrite Hrun in Hanswer; try discriminate Hanswer; done. }
  rewrite (idempotentEmailFunction_answered _ _ _ _ _ _ _ Hparse Hrun).
  unfold AlreadyDone. by destruct flakyRes.
Qed.

(** C8.  When the transaction finds the record of the event's identifier
    leased, not sent, with an expiry later than the clock reads, the
    attempt is rejected with the ledger's own reason, and the world is
    as it was: no email, no [markSent], no request, no write. *)
Theorem live_lease_fails_attempt (ev : event) (clk : clock)
  (flakyRes : response string) (w : world) (content : json)
  (d : emailDoc) (leaseExpiry : Z) :
  parse (event_data ev) w = (Fulfilled content, w) ->
  emailRecord w (eventId (context ev)) = Some d ->
  sent d <> Some true ->
  lease d = Some leaseExpiry ->
  checked clk < leaseExpiry ->
  shouldSendWithLease (eventId (context ev)) clk w = (LeaseHeld, w)
  /\ emailFunction ev clk flakyRes w = (Rejected leaseTaken, w).
Proof.
  intros Hparse Hd Hs Hl Hlt.
  assert (Hrun : shouldSendWithLease (eventId (context ev)) clk w = (LeaseHeld, w)).
  { apply decide_held; unfold isDone; rewrite Hd; simpl.
    - destruct (sent d) as [[]|]; congruence.
    - rewrite Hl. by apply Z.ltb_lt. }
  split; [done|].
  by rewrite (idempotentEmailFunction_answered _ _ _ _ _ _ _ Hparse Hrun).
Qed.

End EmailProperties.

(** C4 as stated fails: the record of [e1] is sent, the ledger answers
    [AlreadyDone], and the attempt posts to the flaky service. *)
Lemma alreadyDone_still_calls_flaky :
  shouldSendWithLease "e1" at50 sentWorld = (AlreadyDone, sentWorld)
  /\ trace (idempotentEmailFunction sampleRegion sampleProject sampleBase64ToString
              sampleParse bareEvent at50 (flaky true) sentWorld).2
     = [Request "POST" "https://us-central1-my-project.cloudfunctions.net/flaky/e1"
          (Some (JObj []))].
Proof. split; vm_compute; reflexivity. Qed.

Lemma alreadyDone_skips_email_only_witness :
  idempotentEmailFunction sampleRegion sampleProject sampleBase64ToString
    sampleParse bareEvent at50 (flaky true) sentWorld
  = (Fulfilled "Flaky service succeeded!",
     {| db := db sentWorld;
        trace := [Request "POST" (endpoint sampleRegion sampleProject "/flaky/e1")
                    (Some (JObj []))] |}).
Proof.
  apply (alreadyDone_skips_email_only sampleRegion sampleProject sampleBase64ToString
           sampleParse bareEvent at50 (flaky true) sentWorld (JObj []));
    reflexivity.
Defined.

Lemma live_lease_fails_attempt_witness :
  shouldSendWithLease "e1" at50 leasedWorld = (LeaseHeld, leasedWorld)
  /\ idempotentEmailFunction sampleRegion sampleProject sampleBase64ToString
       sampleParse bareEvent at50 (flaky true) leasedWorld
     = (Rejected leaseTaken, leasedWorld).
Proof.
  apply (live_lease_fails_attempt sampleRegion sampleProject sampleBase64ToString
           sampleParse bareEvent at50 (flaky true) leasedWorld (JObj [])
           (leasedUntil 100) 100).
  - reflexivity.
  - reflexivity.
  - discriminate.
  - reflexivity.
  - reflexivity.
Defined.

(** ** The idempotent order pipeline *)

Section OrderProperties.

Variables region project : string.
Variable base64ToString : string -> string.

Local Abbreviation uri := (endpoint region project).
Local Abbreviation pipeline :=
  (processOrderRetryIdempotent region project base64ToString).
Local Abbreviation deliverOne := (deliver region project base64ToString).
Local Abbreviation deliverMany := (deliverAll region project base64ToString).
Local Abbreviation received := (receivedEffect base64ToString).
Local Abbreviation askCook := (askCookEffect region project).
Local Abbreviation notifyCook := (notifyCookEffect region project).

(** The whole of one attempt, case by case. *)
Lemma pipeline_run ev cookRes mealRes w :
  pipeline ev cookRes mealRes w
  = match cookRes with
    | Failure status _ =>
        (Rejected (StatusCodeError status),
         {| db := db w; trace := trace w ++ [received ev; askCook] |})
    | Success res =>
        match orderRecord w (eventId (context ev)) with
        | Some _ =>
            (ended mealRes,
             {| db := db w;
                trace := trace w ++ [received ev; askCook; notifyCook ev] |})
        | None =>
            let stored := withCook (newOrder base64ToString ev) (cook res) in
            let wr := SetOrder "incomingRetryIdempotent" (eventId (context ev)) stored in
            (ended mealRes,
             {| db := applyWrite (db w) wr;
                trace := trace w
                         ++ [received ev; askCook;
                             Log ("Assigning cook " +:+ cook res +:+ " and storing order");
                             Commit wr; notifyCook ev] |})
        end
    end.
Proof.
  unfold processOrderRetryIdempotent, andThen, bind, emit, request, callback,
    runTransaction, orderUpdate, orderRecord, received, askCook, notifyCook, ended.
  simpl. destruct cookRes as [res|status msg]; simpl.
  - destruct (collectionDocs "incomingRetryIdempotent" (db w) !! eventId (context ev));
      simpl; destruct mealRes; simpl; rewrite <- ?app_assoc; done.
  - by rewrite <- app_assoc.
Qed.

Lemma collectionDocs_write collection id id' o s :
  collectionDocs collection (applyWrite s (SetOrder collection id' o)) !! id
  = if decide (id' = id) then Some o else collectionDocs collection s !! id.
Proof.
  unfold collectionDocs at 1. simpl. rewrite lookup_insert_eq. simpl.
  case_decide as Hid.
  - subst. apply lookup_insert_eq.
  - by rewrite lookup_insert_ne.
Qed.

(** One attempt and the record of any identifier [id]: either the attempt
    commits no write of [id] and the record is as before, or there was no
    record, the attempt commits exactly one write of [id], and there is a
    record afterwards. *)
Lemma deliver_step id d w :
  exists ext,
    trace (deliverOne d w).2 = trace w ++ ext
    /\ ((orderWrites id ext = []
         /\ orderRecord (deliverOne d w).2 id = orderRecord w id)
        \/ (orderRecord w id = None
            /\ length (orderWrites id ext) = 1%nat
            /\ is_Some (orderRecord (deliverOne d w).2 id))).
Proof.
  unfold deliver. rewrite pipeline_run.
  destruct (cookAnswer d) as [res|status msg].
  - destruct (orderRecord w (eventId (context (delivered d)))) as [o|] eqn:Hrec.
    + eexists. split; [reflexivity|]. left. done.
    + cbv zeta. cbn [snd trace db]. eexists. split; [reflexivity|].
      unfold orderRecord in *. cbn [db]. rewrite collectionDocs_write.
      unfold orderWrites. simpl.
      destruct (decide (eventId (context (delivered d)) = id)) as [Heq|Hne].
      * right. rewrite <- Heq, Hrec, String.eqb_refl. simpl. eauto.
      * left. apply String.eqb_neq in Hne. rewrite Hne. done.
  - eexists. split; [reflexivity|]. left. done.
Qed.

Lemma deliverAll_cons d ds w :
  deliverMany (d :: ds) w = deliverMany ds (deliverOne d w).2.
Proof. done. Qed.

Lemma deliverAll_kept id ds w o :
  orderRecord w id = Some o -> orderRecord (deliverMany ds w) id = Some o.
Proof.
  revert w. induction ds as [|d ds IH]; intros w Hrec; [done|].
  rewrite deliverAll_cons. apply IH.
  destruct (deliver_step id d w) as (ext & _ & [[_ ->] | [Hnone _]]); congruence.
Qed.

Lemma deliverAll_writes id ds w :
  exists ext,
    trace (deliverMany ds w) = trace w ++ ext
    /\ (length (orderWrites id ext) <= 1)%nat
    /\ (is_Some (orderRecord w id) -> orderWrites id ext = []).
Proof.
  revert w. induction ds as [|d ds IH]; intros w.
  { exists []. rewrite app_nil_r. simpl. split; [done|]. split; [lia|done]. }
  rewrite deliverAll_cons.
  destruct (IH (deliverOne d w).2) as (ext2 & Htr2 & Hle2 & Hnone2).
  destruct (deliver_step id d w) as (ext1 & Htr1 & Hcase).
  exists (ext1 ++ ext2). rewrite Htr2, Htr1, <- app_assoc. split; [done|].
  unfold orderWrites in *. rewrite List.filter_app, length_app.
  destruct Hcase as [[Hw Hsame] | (Hnone & Hone & Hsome)].
  - rewrite Hw. simpl. split; [done|]. intros Hs. apply Hnone2. by rewrite Hsame.
  - rewrite (Hnone2 Hsome), Hone. simpl. split; [lia|]. rewrite Hnone. by intros [? ?].
Qed.

(** C5, as the code has it.  [processOrderRetryIdempotent] asks
    [chooseCook] first thing in every attempt, before and outside the
    transaction, whatever the store holds.  On a re-delivery of an event
    whose order record exists the store is left as it is, and when
    [chooseCook] answers, its answer is dropped: the attempt logs, asks
    [chooseCook], notifies with the order id, and does nothing else. *)
Theorem chooseCook_asked_on_every_attempt (ev : event)
  (cookRes : response chosen) (mealRes : response string) (w : world) :
  (exists rest,
     trace (pipeline ev cookRes mealRes w).2
     = trace w ++ received ev :: askCook :: rest)
  /\ (forall o,
        orderRecord w (eventId (context ev)) = Some o ->
        db (pipeline ev cookRes mealRes w).2 = db w
        /\ (forall res,
              cookRes = Success res ->
              pipeline ev cookRes mealRes w
              = (ended mealRes,
                 {| db := db w;
                    trace := trace w ++ [received ev; askCook; notifyCook ev] |}))).
Proof.
  rewrite pipeline_run. split.
  - destruct cookRes as [res|status msg]; [|by eexists].
    destruct (orderRecord w (eventId (context ev))); by eexists.
  - intros o Hrec. rewrite Hrec. split.
    + by destruct cookRes.
    + by intros res ->.
Qed.

(** C9.  The order record of an identifier is written at most once.
    - An attempt for an event whose record exists leaves the whole store
      as it is and commits no write.
    - Whatever attempts follow, for whatever events and with whatever
      answers of the services, a record that exists stays the same
      [order]: same cook, timestamp and meal.
    - Over any series of attempts at most one write of the record of [id]
      is committed, and none when the record existed before. *)
Theorem order_written_at_most_once (id : string) (ds : list delivery) (w : world) :
  (forall d o,
     orderRecord w (eventId (context (delivered d))) = Some o ->
     db (deliverOne d w).2 = db w
     /\ (forall wr, In (Commit wr) (trace (deliverOne d w).2) -> In (Commit wr) (trace w)))
  /\ (forall o,
        orderRecord w id = Some o -> orderRecord (deliverMany ds w) id = Some o)
  /\ (exists ext,
        trace (deliverMany ds w) = trace w ++ ext
        /\ (length (orderWrites id ext) <= 1)%nat
        /\ (is_Some (orderRecord w id) -> orderWrites id ext = [])).
Proof.
  split; [|split].
  - intros d o Hrec. unfold deliver. rewrite pipeline_run, Hrec.
    destruct (cookAnswer d) as [res|status msg]; (split; [done|]);
      intros wr Hin; cbn [snd trace] in Hin; apply in_app_or in Hin as [Hin|Hin];
      try done; unfold receivedEffect, askCookEffect, notifyCookEffect in Hin;
      simpl in Hin; intuition discriminate.
  - intros o. apply deliverAll_kept.
  - apply deliverAll_writes.
Qed.

End OrderProperties.

(** C5 as stated fails: the order of [e1] is stored with John as cook,
    the event is delivered again, and [chooseCook] is asked again (and
    picks Mike, whom the attempt drops). *)
Lemma chooseCook_asked_again :
  orderRecord orderedWorld "e1" = Some johnsOrder
  /\ (processOrderRetryIdempotent sampleRegion sampleProject sampleBase64ToString
        pizzaEvent (chooseCook true 2) (prepareMeal true) orderedWorld).2
     = {| db := db orderedWorld;
          trace :=
            [Log "Received an order for meal pizza";
             Request "GET" "https://us-central1-my-project.cloudfunctions.net/chooseCook/" None;
             Request "POST" "https://us-central1-my-project.cloudfunctions.net/prepareMeal/"
               (Some (JObj [("id", JStr "e1")]))] |}.
Proof. split; vm_compute; reflexivity. Qed.

(** ** The document functions and the message body *)

Section ContentProperties.

Variables region project : string.
Variable base64ToString : string -> string.
Variable JSON_parse : string -> option json.

Local Abbreviation parse := (parseContent base64ToString JSON_parse).
Local Abbreviation uri := (endpoint region project).

(** C6, as the code has it.  [idempotentFirestoreFunction] writes with
    [set], which creates or overwrites: for content that is a plain
    object, whether or not the event's identifier has a record, the write
    is committed and the record is the event's content afterwards (so the
    store is as before exactly when it already held that content); the
    content is then posted to the flaky service, and the attempt ends as
    that request does. *)
Theorem set_creates_or_overwrites (ev : event) (flakyRes : response string)
  (w : world) (content : json) :
  parse (event_data ev) w = (Fulfilled content, w) ->
  isPlainObject content = true ->
  let id := eventId (context ev) in
  let after := (idempotentFirestoreFunction region project base64ToString JSON_parse
                  ev flakyRes w).2 in
  idempotentFirestoreFunction region project base64ToString JSON_parse ev flakyRes w
  = (ended flakyRes,
     {| db := applyWrite (db w) (SetContent id content);
        trace := trace w ++ [Commit (SetContent id content);
                             Request "POST" (uri ("/flaky/" +:+ id)) (Some content)] |})
  /\ contents (db after) !! id = Some content
  /\ (contents (db w) !! id = Some content -> db after = db w).
Proof.
  intros Hparse Hobj id after.
  assert (Hrun : idempotentFirestoreFunction region project base64ToString JSON_parse
                   ev flakyRes w
                 = (ended flakyRes,
                    {| db := applyWrite (db w) (SetContent id content);
                       trace := trace w ++ [Commit (SetContent id content);
                                            Request "POST" (uri ("/flaky/" +:+ id))
                                              (Some content)] |})).
  { unfold idempotentFirestoreFunction, andThen, bind at 1. rewrite Hparse.
    unfold setContent. rewrite Hobj. unfold bind, callback, request, emit, commit.
    destruct flakyRes; simpl; by rewrite <- app_assoc. }
  subst after. rewrite Hrun. split; [done|]. simpl. split.
  - apply lookup_insert_eq.
  - intros Hsame. destruct (db w) as [c s o]. simpl in *. f_equal. by apply insert_id.
Qed.

(** [Buffer.from('', 'base64').toString()] is [''] and [JSON.parse('{}')]
    is [{}]. *)
Hypothesis decode_empty : base64ToString "" = "".
Hypothesis parse_empty_object : JSON_parse "{}" = Some (JObj []).

Lemma parseContent_default message w :
  data message = None \/ (exists s, data message = Some s /\ base64ToString s = "") ->
  parse message w = (Fulfilled (JObj []), w).
Proof.
  intros Hdata. unfold parseContent.
  assert (base64ToString (orString (data message) "") = "") as ->.
  { destruct Hdata as [-> | (s & -> & Hs)]; simpl; [done|].
    by destruct (String.eqb s ""). }
  simpl. by rewrite parse_empty_object.
Qed.

Lemma newOrder_default ev :
  data (event_data ev) = None
  \/ (exists s, data (event_data ev) = Some s /\ base64ToString s = "") ->
  newOrder base64ToString ev
  = {| order_id := eventId (context ev); order_timestamp := timestamp (context ev);
       order_meal := ""; order_cook := None |}.
Proof.
  intros Hdata. unfold newOrder. f_equal.
  destruct Hdata as [-> | (s & -> & Hs)]; simpl; [done|].
  by destruct (String.eqb s "").
Qed.

(** Unfolds a function down to the store and the answers it consults
    and splits on them. *)
Ltac run_cases :=
  unfold andThen, bind, callback, request, emit, ret, throw, reject, addContent,
    setContent, addOrder, shouldSend, markSent, shouldSendWithLease,
    shouldSendWithLeaseFor, runTransaction, leaseUpdate, orderUpdate;
  simpl; repeat case_match; simplify_eq/=; try done.

(** C10.  When [event.data.data] is missing, or decodes to the empty
    string, no Pub/Sub function throws: the content parsed by the
    functions of the idempotency and retries samples is [{}], the order of
    the order pipelines has the meal [''], and each function goes on with
    that value. *)
Theorem absent_body_defaults (ev : event) (w : world) (autoId collection : string)
  (clk : clock) (flakyRes mealRes : response string) (cookRes : response chosen) :
  data (event_data ev) = None
  \/ (exists s, data (event_data ev) = Some s /\ base64ToString s = "") ->
  let content := JObj [] in
  let id := eventId (context ev) in
  let post target := request "POST" (uri target) (Some content) flakyRes in
  let send := emit (SendEmail None) ;; markSent id in
  parse (event_data ev) w = (Fulfilled content, w)
  /\ newOrder base64ToString ev
     = {| order_id := id; order_timestamp := timestamp (context ev);
          order_meal := ""; order_cook := None |}
  /\ nonIdempotentFirestoreFunction region project base64ToString JSON_parse
       ev autoId flakyRes w
     = andThen (addContent autoId content) (fun _ => post "/flaky") w
  /\ idempotentFirestoreFunction region project base64ToString JSON_parse ev flakyRes w
     = andThen (setContent id content) (fun _ => post ("/flaky/" +:+ id)) w
  /\ nonIdempotentEmailFunction region project base64ToString JSON_parse ev flakyRes w
     = (emit (SendEmail None) ;; post "/flaky") w
  /\ almostIdempotentEmailFunction region project base64ToString JSON_parse ev flakyRes w
     = andThen
         (andThen (shouldSend id) (fun run : bool => if run then send else ret tt))
         (fun _ => post ("/flaky/" +:+ id)) w
  /\ idempotentEmailFunction region project base64ToString JSON_parse ev clk flakyRes w
     = andThen
         (andThen (shouldSendWithLease id clk)
            (fun run : bool => if run then send else ret tt))
         (fun _ => post ("/flaky/" +:+ id)) w
  /\ pubSubFunction region project base64ToString JSON_parse ev flakyRes w
     = post "/flaky" w
  /\ (forall r e,
        In r [(nonIdempotentFirestoreFunction region project base64ToString JSON_parse
                 ev autoId flakyRes w).1;
              (idempotentFirestoreFunction region project base64ToString JSON_parse
                 ev flakyRes w).1;
              (nonIdempotentEmailFunction region project base64ToString JSON_parse
                 ev flakyRes w).1;
              (almostIdempotentEmailFunction region project base64ToString JSON_parse
                 ev flakyRes w).1;
              (idempotentEmailFunction region project base64ToString JSON_parse
                 ev clk flakyRes w).1;
              (pubSubFunction region project base64ToString JSON_parse ev flakyRes w).1;
              (processOrder region project base64ToString ev cookRes autoId mealRes w).1;
              (processOrderRetry region project base64ToString ev cookRes autoId mealRes w).1;
              (processOrderRetryIdempotent region project base64ToString
                 ev cookRes mealRes w).1] ->
        r <> Thrown e).
Proof.
  intros Hdata content id post send.
  pose proof (parseContent_default (event_data ev) w Hdata) as Hparse.
  assert (H1 : nonIdempotentFirestoreFunction region project base64ToString JSON_parse
                 ev autoId flakyRes w
               = andThen (addContent autoId content) (fun _ => post "/flaky") w).
  { unfold nonIdempotentFirestoreFunction, bind at 1. by rewrite Hparse. }
  assert (H2 : idempotentFirestoreFunction region project base64ToString JSON_parse
                 ev flakyRes w
               = andThen (setContent id content) (fun _ => post ("/flaky/" +:+ id)) w).
  { unfold idempotentFirestoreFunction, bind at 1. by rewrite Hparse. }
  assert (H3 : nonIdempotentEmailFunction region project base64ToString JSON_parse
                 ev flakyRes w
               = (emit (SendEmail None) ;; post "/flaky") w).
  { unfold nonIdempotentEmailFunction, bind at 1. by rewrite Hparse. }
  assert (H4 : almostIdempotentEmailFunction region project base64ToString JSON_parse
                 ev flakyRes w
               = andThen
                   (andThen (shouldSend id) (fun run : bool => if run then send else ret tt))
                   (fun _ => post ("/flaky/" +:+ id)) w).
  { unfold almostIdempotentEmailFunction, bind at 1. by rewrite Hparse. }
  assert (H5 : idempotentEmailFunction region project base64ToString JSON_parse
                 ev clk flakyRes w
               = andThen
                   (andThen (shouldSendWithLease id clk)
                      (fun run : bool => if run then send else ret tt))
                   (fun _ => post ("/flaky/" +:+ id)) w).
  { unfold idempotentEmailFunction, bind at 1. by rewrite Hparse. }
  assert (H6 : pubSubFunction region project base64ToString JSON_parse ev flakyRes w
               = post "/flaky" w).
  { unfold pubSubFunction, bind at 1. by rewrite Hparse. }
  repeat (split; [first [exact Hparse | by apply newOrder_default | assumption]|]).
  intros r e Hin. simpl in Hin.
  rewrite H1, H2, H3, H4, H5, H6 in Hin. clear H1 H2 H3 H4 H5 H6 Hparse.
  subst content id post send.
  unfold processOrder, processOrderRetry, nonIdempotentProcessOrder,
    processOrderRetryIdempotent in Hin.
  destruct Hin as [<-|[<-|[<-|[<-|[<-|[<-|[<-|[<-|[<-|[]]]]]]]]]]; run_cases.
Qed.

End ContentProperties.

(** C6 as stated fails: [contents/e1] holds [{value: 1}], the event [e1]
    arrives with the content [{}], and the write is not skipped: it is
    committed and the record is [{}] afterwards. *)
Lemma set_replaces_existing_record :
  contents (db storedWorld) !! "e1" = Some (JObj [("value", JNum 1)])
  /\ (idempotentFirestoreFunction sampleRegion sampleProject sampleBase64ToString
        sampleParse bareEvent (flaky true) storedWorld).2
     = {| db := applyWrite (db storedWorld) (SetContent "e1" (JObj []));
          trace :=
            [Commit (SetContent "e1" (JObj []));
             Request "POST" "https://us-central1-my-project.cloudfunctions.net/flaky/e1"
               (Some (JObj []))] |}
  /\ contents (db (idempotentFirestoreFunction sampleRegion sampleProject
                     sampleBase64ToString sampleParse bareEvent (flaky true)
                     storedWorld).2) !! "e1"
     = Some (JObj []).
Proof. repeat split; vm_compute; reflexivity. Qed.

Lemma set_creates_or_overwrites_witness :
  contents (db (idempotentFirestoreFunction sampleRegion sampleProject
                  sampleBase64ToString sampleParse bareEvent (flaky true)
                  storedWorld).2) !! "e1"
  = Some (JObj []).
Proof.
  destruct (set_creates_or_overwrites sampleRegion sampleProject sampleBase64ToString
              sampleParse bareEvent (flaky true) storedWorld (JObj [])
              eq_refl eq_refl) as (_ & Hrecord & _).
  exact Hrecord.
Defined.

Lemma absent_body_defaults_witness :
  parseContent sampleBase64ToString sampleParse (event_data bareEvent) emptyWorld
  = (Fulfilled (JObj []), emptyWorld)
  /\ order_meal (newOrder sampleBase64ToString bareEvent) = "".
Proof.
  destruct (absent_body_defaults sampleRegion sampleProject sampleBase64ToString
              sampleParse eq_refl eq_refl bareEvent emptyWorld "a1" "incoming" at50
              (flaky true) (prepareMeal true) (chooseCook true 0)
              (or_introl eq_refl)) as (Hparse & Horder & _).
  split; [exact Hparse | by rewrite Horder].
Defined.

(** ** The theorems on the sample inputs *)

Lemma shouldSendWithLease_contract_witness :
  shouldSendWithLeaseFor leaseTime "e1" at50 emptyWorld
  = (ShouldRun, commit (SetEmail "e1" (leasedUntil 60050)) emptyWorld)
  /\ shouldSendWithLeaseFor leaseTime "e1" at50 sentWorld = (AlreadyDone, sentWorld)
  /\ shouldSendWithLeaseFor leaseTime "e1" at50 leasedWorld = (LeaseHeld, leasedWorld)
  /\ shouldSendWithLeaseFor leaseTime "e1" {| checked := 100; stamped := 101 |} leasedWorld
     = (ShouldRun, commit (SetEmail "e1" (leasedUntil 60101)) leasedWorld).
Proof.
  split; [|split; [|split]].
  - apply (proj1 (shouldSendWithLease_contract leaseTime "e1" at50 emptyWorld)).
    reflexivity.
  - apply (proj1 (proj2 (shouldSendWithLease_contract leaseTime "e1" at50 sentWorld))
             sentDoc); reflexivity.
  - apply (proj1 (proj2 (proj2 (shouldSendWithLease_contract leaseTime "e1" at50
                                  leasedWorld))) (leasedUntil 100) 100);
      [reflexivity | discriminate | reflexivity | reflexivity].
  - apply (proj2 (proj2 (proj2 (shouldSendWithLease_contract leaseTime "e1"
                                  {| checked := 100; stamped := 101 |} leasedWorld)))
             (leasedUntil 100) 100);
      [reflexivity | discriminate | reflexivity | discriminate].
Defined.

Lemma one_ShouldRun_per_lease_witness :
  (exists k : nat,
     (k < 2)%nat
     /\ (decideAll leaseTime "e1" (take 2 threeCalls) emptyWorld).1
        = replicate k LeaseHeld ++ ShouldRun :: replicate (2 - S k) LeaseHeld)
  /\ 5 + leaseTime <= 60005.
Proof.
  split.
  - apply (proj1 (one_ShouldRun_per_lease leaseTime "e1" (take 2 threeCalls) emptyWorld)
             60005).
    + reflexivity.
    + repeat constructor.
  - apply (proj2 (one_ShouldRun_per_lease leaseTime "e1" threeCalls emptyWorld)
             0%nat 2%nat {| checked := 5; stamped := 5 |}
             {| checked := 60005; stamped := 60006 |}).
    + lia.
    + reflexivity.
    + reflexivity.
    + reflexivity.
    + reflexivity.
    + intros k Hk. assert (k = 1%nat) as -> by lia. discriminate.
Defined.

Lemma done_is_absorbing_witness :
  emailRecord
    (runOps [Decide 1 "e1" at50; MarkDone "e2"; Decide leaseTime "e1" at50]
       (markSent "e1" emptyWorld).2).2 "e1"
  = Some sentDoc
  /\ (runOps [Decide 1 "e1" at50; MarkDone "e2"; Decide leaseTime "e1" at50]
        (markSent "e1" emptyWorld).2).1 !! 2%nat
     = Some (Decided AlreadyDone).
Proof.
  destruct (done_is_absorbing "e1" emptyWorld
              [Decide 1 "e1" at50; MarkDone "e2"; Decide leaseTime "e1" at50])
    as (Hrecord & Hanswers & _).
  split; [exact Hrecord|]. apply (Hanswers 2%nat leaseTime at50). reflexivity.
Defined.

Lemma chooseCook_asked_on_every_attempt_witness :
  processOrderRetryIdempotent sampleRegion sampleProject sampleBase64ToString
    pizzaEvent (chooseCook true 2) (prepareMeal true) orderedWorld
  = (Fulfilled "Cook successfully notified to prepare a meal.",
     {| db := db orderedWorld;
        trace := [receivedEffect sampleBase64ToString pizzaEvent;
                  askCookEffect sampleRegion sampleProject;
                  notifyCookEffect sampleRegion sampleProject pizzaEvent] |}).
Proof.
  apply (proj2 (proj2 (chooseCook_asked_on_every_attempt sampleRegion sampleProject
                         sampleBase64ToString pizzaEvent (chooseCook true 2)
                         (prepareMeal true) orderedWorld) johnsOrder eq_refl)
           {| cook := "Mike" |}).
  reflexivity.
Defined.

Lemma order_written_at_most_once_witness :
  orderRecord
    (deliverAll sampleRegion sampleProject sampleBase64ToString redeliveries orderedWorld)
    "e1"
  = Some johnsOrder.
Proof.
  apply (proj1 (proj2 (order_written_at_most_once sampleRegion sampleProject
                         sampleBase64ToString "e1" redeliveries orderedWorld))).
  reflexivity.
Defined.

(** ** The functions on the sample inputs *)

Example first_call_runs_second_is_held :
  (decideAll leaseTime "e1" [{| checked := 5; stamped := 5 |}; {| checked := 9; stamped := 9 |}]
     emptyWorld).1
  = [ShouldRun; LeaseHeld].
Proof. vm_compute. reflexivity. Qed.

Example call_after_expiry_runs_again :
  (decideAll leaseTime "e1"
     [{| checked := 5; stamped := 5 |}; {| checked := 60004; stamped := 60004 |};
      {| checked := 60005; stamped := 60006 |}] emptyWorld)
  = ([ShouldRun; LeaseHeld; ShouldRun],
     {| db := applyWrite emptyStore (SetEmail "e1" (leasedUntil 120006));
        trace := [Commit (SetEmail "e1" (leasedUntil 60005));
                  Commit (SetEmail "e1" (leasedUntil 120006))] |}).
Proof. vm_compute. reflexivity. Qed.

Example sent_record_answers_false :
  (runOps [Decide leaseTime "e1" at50; MarkDone "e1"; Decide 1 "e1" {| checked := 900000; stamped := 900000 |}]
     emptyWorld).1
  = [Decided ShouldRun; Marked; Decided AlreadyDone].
Proof. vm_compute. reflexivity. Qed.

Example first_attempt_sends_the_email :
  idempotentEmailFunction sampleRegion sampleProject sampleBase64ToString sampleParse
    bareEvent at50 (flaky false) emptyWorld
  = (Rejected (StatusCodeError 500),
     {| db := applyWrite emptyStore (SetEmail "e1" sentDoc);
        trace := [Commit (SetEmail "e1" (leasedUntil 60050));
                  SendEmail None;
                  Commit (SetEmail "e1" sentDoc);
                  Request "POST" "https://us-central1-my-project.cloudfunctions.net/flaky/e1"
                    (Some (JObj []))] |}).
Proof. vm_compute. reflexivity. Qed.

Example first_delivery_stores_the_order :
  (processOrderRetryIdempotent sampleRegion sampleProject sampleBase64ToString
     pizzaEvent (chooseCook true 0) (prepareMeal false) emptyWorld).2
  = {| db := db orderedWorld;
       trace :=
         [Log "Received an order for meal pizza";
          Request "GET" "https://us-central1-my-project.cloudfunctions.net/chooseCook/" None;
          Log "Assigning cook John and storing order";
          Commit (SetOrder "incomingRetryIdempotent" "e1" johnsOrder);
          Request "POST" "https://us-central1-my-project.cloudfunctions.net/prepareMeal/"
            (Some (JObj [("id", JStr "e1")]))] |}.
Proof. vm_compute. reflexivity. Qed.

Example null_content_rejects_the_email_attempt :
  (idempotentEmailFunction sampleRegion sampleProject sampleBase64ToString sampleParse
     {| event_data := {| data := Some "bnVsbA==" |};
        context := {| eventId := "e2"; timestamp := "" |} |}
     at50 (flaky true) emptyWorld).1
  = Rejected TypeError.
Proof. vm_compute. reflexivity. Qed.

(** * More properties *)

(** ** Counting in traces and series of attempts *)

Lemma emailsSent_app tr1 tr2 : emailsSent (tr1 ++ tr2) = (emailsSent tr1 + emailsSent tr2)%nat.
Proof. unfold emailsSent. by rewrite List.filter_app, length_app. Qed.

Lemma requestsTo_app method uri tr1 tr2 :
  requestsTo method uri (tr1 ++ tr2)
  = (requestsTo method uri tr1 + requestsTo method uri tr2)%nat.
Proof. unfold requestsTo. by rewrite List.filter_app, length_app. Qed.

Section AtMostOnce.

(** Attempts that each send at most one email, and send one only when
    the record is not yet marked, marking it at once. *)
Variable A : Type.
Variable attempt : A -> world -> world.
Variable marked : world -> bool.

Hypothesis attempt_step : forall a w,
  exists ext,
    trace (attempt a w) = trace w ++ ext
    /\ ((emailsSent ext = 0%nat /\ (marked w = true -> marked (attempt a w) = true))
        \/ (marked w = false /\ emailsSent ext = 1%nat /\ marked (attempt a w) = true)).

Lemma series_at_most_once (answers : list A) (w : world) :
  exists ext,
    trace (foldl (fun w' a => attempt a w') w answers) = trace w ++ ext
    /\ (emailsSent ext <= 1)%nat
    /\ (marked w = true -> emailsSent ext = 0%nat).
Proof.
  revert w. induction answers as [|a answers IH]; intros w.
  { exists []. rewrite app_nil_r. simpl. split; [done|].
    split; [unfold emailsSent; simpl; lia|done]. }
  simpl. destruct (IH (attempt a w)) as (ext2 & Htr2 & Hle2 & Hzero2).
  destruct (attempt_step a w) as (ext1 & Htr1 & Hcase).
  exists (ext1 ++ ext2). rewrite Htr2, Htr1, <- app_assoc. split; [done|].
  rewrite emailsSent_app.
  destruct Hcase as [[Hnone Hkeep] | (Hun & Hone & Hmark)].
  - rewrite Hnone. simpl. split; [done|]. intros Hm. by apply Hzero2, Hkeep.
  - rewrite Hone, (Hzero2 Hmark). split; [lia|]. rewrite Hun. discriminate.
Qed.

End AtMostOnce.

(** ** The email functions, attempt by attempt *)

Section EmailAttempts.

Variables region project : string.
Variable base64ToString : string -> string.
Variable JSON_parse : string -> option json.

Local Abbreviation parse := (parseContent base64ToString JSON_parse).
Local Abbreviation uri := (endpoint region project).

Lemma parseContent_cases message w :
  (exists content, parse message w = (Fulfilled content, w))
  \/ parse message w = (Thrown SyntaxError, w).
Proof. unfold parseContent. destruct (JSON_parse _); eauto. Qed.

Lemma property_text content w :
  property "text" content w
  = if isNull content then (Thrown TypeError, w) else (Fulfilled (textOf content), w).
Proof. by destruct content. Qed.

Lemma andThen_andThen {A B C} (p : M A) (f : A -> M B) (g : B -> M C) w a w' :
  p w = (Fulfilled a, w') ->
  andThen (andThen p f) g w = andThen (callback (f a)) g w'.
Proof. intros Hp. unfold andThen, bind. by rewrite Hp. Qed.

(** The part of the two deduplicating functions behind [if (send)],
    followed by the request to the flaky service. *)
Lemma send_then_post id target content (flakyRes : response string) w :
  andThen
    (callback (text <~ property "text" content ;;
               emit (SendEmail text) ;;
               markSent id))
    (fun _ => request "POST" target (Some content) flakyRes) w
  = if isNull content then (Rejected TypeError, w)
    else (ended flakyRes,
          {| db := applyWrite (db w) (SetEmail id sentDoc);
             trace := trace w ++ [SendEmail (textOf content);
                                  Commit (SetEmail id sentDoc);
                                  Request "POST" target (Some content)] |}).
Proof.
  unfold andThen, bind, callback. rewrite property_text.
  destruct (isNull content); [done|].
  unfold emit, markSent, commit, request, bind, emit, ended. simpl.
  destruct flakyRes; simpl; by rewrite <- !app_assoc.
Qed.

(** All of one attempt of [idempotentEmailFunction] on parsed content. *)
Lemma idempotentEmailFunction_run ev clk flakyRes w content :
  parse (event_data ev) w = (Fulfilled content, w) ->
  let id := eventId (context ev) in
  let post := Request "POST" (uri ("/flaky/" +:+ id)) (Some content) in
  idempotentEmailFunction region project base64ToString JSON_parse ev clk flakyRes w
  = if isDone w id then
      (ended flakyRes, {| db := db w; trace := trace w ++ [post] |})
    else if existsAndLeased (checked clk) (emailRecord w id) then
      (Rejected leaseTaken, w)
    else
      let w1 := commit (SetEmail id (leasedUntil (stamped clk + leaseTime))) w in
      if isNull content then (Rejected TypeError, w1)
      else (ended flakyRes,
            {| db := applyWrite (db w1) (SetEmail id sentDoc);
               trace := trace w1 ++ [SendEmail (textOf content);
                                     Commit (SetEmail id sentDoc); post] |}).
Proof.
  intros Hparse id post.
  destruct (isDone w id) eqn:Hd.
  - rewrite (idempotentEmailFunction_answered region project base64ToString JSON_parse
            ev clk flakyRes w content AlreadyDone w Hparse)
      by (by apply decide_done).
    unfold AlreadyDone, request, bind, emit, ended. simpl. by destruct flakyRes.
  - destruct (existsAndLeased (checked clk) (emailRecord w id)) eqn:Hl.
    + by rewrite (idempotentEmailFunction_answered region project base64ToString JSON_parse
            ev clk flakyRes w content LeaseHeld w Hparse)
        by (by apply decide_held).
    + rewrite (idempotentEmailFunction_answered region project base64ToString JSON_parse
            ev clk flakyRes w content ShouldRun _ Hparse)
        by (by apply decide_free).
      unfold ShouldRun. apply send_then_post.
Qed.

Lemma almostIdempotentEmailFunction_run ev flakyRes w content :
  parse (event_data ev) w = (Fulfilled content, w) ->
  let id := eventId (context ev) in
  let post := Request "POST" (uri ("/flaky/" +:+ id)) (Some content) in
  almostIdempotentEmailFunction region project base64ToString JSON_parse ev flakyRes w
  = if isDone w id then
      (ended flakyRes, {| db := db w; trace := trace w ++ [post] |})
    else if isNull content then (Rejected TypeError, w)
    else (ended flakyRes,
          {| db := applyWrite (db w) (SetEmail id sentDoc);
             trace := trace w ++ [SendEmail (textOf content);
                                  Commit (SetEmail id sentDoc); post] |}).
Proof.
  intros Hparse id post.
  unfold almostIdempotentEmailFunction, bind at 1. rewrite Hparse.
  rewrite (andThen_andThen _ _ _ _ _ _
             (eq_refl : shouldSend id w = (Fulfilled (negb (isDone w id)), w))).
  destruct (isDone w id); simpl negb; cbv iota.
  - unfold andThen, bind, callback, ret, request, bind, emit, ended. simpl.
    by destruct flakyRes.
  - apply send_then_post.
Qed.

Lemma nonIdempotentEmailFunction_run ev flakyRes w content :
  parse (event_data ev) w = (Fulfilled content, w) ->
  nonIdempotentEmailFunction region project base64ToString JSON_parse ev flakyRes w
  = if isNull content then (Thrown TypeError, w)
    else (ended flakyRes,
          {| db := db w;
             trace := trace w ++ [SendEmail (textOf content);
                                  Request "POST" (uri "/flaky") (Some content)] |}).
Proof.
  intros Hparse. unfold nonIdempotentEmailFunction, bind at 1. rewrite Hparse.
  unfold bind at 1. rewrite property_text. destruct (isNull content); [done|].
  unfold bind, emit, request, bind, emit, ended. simpl.
  destruct flakyRes; simpl; by rewrite <- !app_assoc.
Qed.

Lemma parseContent_thrown message w w' :
  parse message w = (Thrown SyntaxError, w) -> parse message w' = (Thrown SyntaxError, w').
Proof. unfold parseContent. by destruct (JSON_parse _). Qed.

Lemma parseContent_fulfilled message content w w' :
  parse message w = (Fulfilled content, w) -> parse message w' = (Fulfilled content, w').
Proof. unfold parseContent. destruct (JSON_parse _); [|done]. by intros [= ->]. Qed.

Lemma isDone_marked (s : firestore) id tr :
  isDone {| db := applyWrite s (SetEmail id sentDoc); trace := tr |} id = true.
Proof. unfold isDone, emailRecord. simpl. by rewrite lookup_insert_eq. Qed.

Lemma idempotentEmail_step ev clk flakyRes w :
  exists ext,
    trace (idempotentEmailFunction region project base64ToString JSON_parse
             ev clk flakyRes w).2
    = trace w ++ ext
    /\ ((emailsSent ext = 0%nat
         /\ (isDone w (eventId (context ev)) = true ->
             isDone (idempotentEmailFunction region project base64ToString JSON_parse
                       ev clk flakyRes w).2 (eventId (context ev)) = true))
        \/ (isDone w (eventId (context ev)) = false
            /\ emailsSent ext = 1%nat
            /\ isDone (idempotentEmailFunction region project base64ToString JSON_parse
                         ev clk flakyRes w).2 (eventId (context ev)) = true)).
Proof.
  destruct (parseContent_cases (event_data ev) w) as [[content Hparse] | Hparse].
  - rewrite (idempotentEmailFunction_run _ _ _ _ _ Hparse). cbv zeta.
    destruct (isDone w (eventId (context ev))) eqn:Hd.
    { exists [Request "POST" (uri ("/flaky/" +:+ eventId (context ev))) (Some content)].
      split; [done|]. left. split; [done|]. intros _. exact Hd. }
    destruct (existsAndLeased (checked clk) (emailRecord w (eventId (context ev)))).
    { exists []. rewrite app_nil_r. split; [done|]. left. done. }
    destruct (isNull content).
    { eexists. split; [reflexivity|]. left. split; [done|discriminate]. }
    eexists. split; [simpl; by rewrite <- app_assoc|]. right.
    split; [done|]. split; [done|]. apply isDone_marked.
  - assert (idempotentEmailFunction region project base64ToString JSON_parse
              ev clk flakyRes w = (Thrown SyntaxError, w)) as ->.
    { unfold idempotentEmailFunction, bind at 1. by rewrite Hparse. }
    exists []. rewrite app_nil_r. split; [done|]. left. done.
Qed.

Lemma almostIdempotentEmail_step ev flakyRes w :
  exists ext,
    trace (almostIdempotentEmailFunction region project base64ToString JSON_parse
             ev flakyRes w).2
    = trace w ++ ext
    /\ ((emailsSent ext = 0%nat
         /\ (isDone w (eventId (context ev)) = true ->
             isDone (almostIdempotentEmailFunction region project base64ToString
                       JSON_parse ev flakyRes w).2 (eventId (context ev)) = true))
        \/ (isDone w (eventId (context ev)) = false
            /\ emailsSent ext = 1%nat
            /\ isDone (almostIdempotentEmailFunction region project base64ToString
                         JSON_parse ev flakyRes w).2 (eventId (context ev)) = true)).
Proof.
  destruct (parseContent_cases (event_data ev) w) as [[content Hparse] | Hparse].
  - rewrite (almostIdempotentEmailFunction_run _ _ _ _ Hparse). cbv zeta.
    destruct (isDone w (eventId (context ev))) eqn:Hd.
    { exists [Request "POST" (uri ("/flaky/" +:+ eventId (context ev))) (Some content)].
      split; [done|]. left. split; [done|]. intros _. exact Hd. }
    destruct (isNull content).
    { exists []. rewrite app_nil_r. split; [done|]. left. split; [done|discriminate]. }
    eexists. split; [reflexivity|]. right.
    split; [done|]. split; [done|]. apply isDone_marked.
  - assert (almostIdempotentEmailFunction region project base64ToString JSON_parse
              ev flakyRes w = (Thrown SyntaxError, w)) as ->.
    { unfold almostIdempotentEmailFunction, bind at 1. by rewrite Hparse. }
    exists []. rewrite app_nil_r. split; [done|]. left. done.
Qed.

End EmailAttempts.

(** ** What the email functions guarantee *)

Section EmailGuarantees.

Variables region project : string.
Variable base64ToString : string -> string.
Variable JSON_parse : string -> option json.

Local Abbreviation parse := (parseContent base64ToString JSON_parse).
Local Abbreviation uri := (endpoint region project).

(** X1.  When [JSON.parse] throws on the decoded body, each of the six
    functions that parse it throws the [SyntaxError] before it does
    anything: no write, no lease, no email, no request. *)
Theorem unparsable_body_throws_first (ev : event) (autoId : string) (clk : clock)
  (flakyRes : response string) (w : world) :
  parse (event_data ev) w = (Thrown SyntaxError, w) ->
  nonIdempotentFirestoreFunction region project base64ToString JSON_parse
    ev autoId flakyRes w = (Thrown SyntaxError, w)
  /\ idempotentFirestoreFunction region project base64ToString JSON_parse
       ev flakyRes w = (Thrown SyntaxError, w)
  /\ nonIdempotentEmailFunction region project base64ToString JSON_parse
       ev flakyRes w = (Thrown SyntaxError, w)
  /\ almostIdempotentEmailFunction region project base64ToString JSON_parse
       ev flakyRes w = (Thrown SyntaxError, w)
  /\ idempotentEmailFunction region project base64ToString JSON_parse
       ev clk flakyRes w = (Thrown SyntaxError, w)
  /\ pubSubFunction region project base64ToString JSON_parse
       ev flakyRes w = (Thrown SyntaxError, w).
Proof.
  intros Hparse.
  unfold nonIdempotentFirestoreFunction, idempotentFirestoreFunction,
    nonIdempotentEmailFunction, almostIdempotentEmailFunction,
    idempotentEmailFunction, pubSubFunction, bind.
  by rewrite Hparse.
Qed.

Lemma isDone_leased id t w :
  isDone (commit (SetEmail id (leasedUntil t)) w) id = false.
Proof. unfold isDone. by rewrite emailRecord_commit_eq. Qed.

Lemma null_body_series ev answers w :
  parse (event_data ev) w = (Fulfilled JNull, w) ->
  isDone w (eventId (context ev)) = false ->
  isDone (redeliverIdempotentEmail region project base64ToString JSON_parse
            ev answers w) (eventId (context ev)) = false
  /\ exists ext,
       trace (redeliverIdempotentEmail region project base64ToString JSON_parse
                ev answers w) = trace w ++ ext
       /\ Forall (fun e => isCommit e = true) ext.
Proof.
  revert w. induction answers as [|[clk flakyRes] answers IH]; intros w Hparse Hd.
  { split; [done|]. exists []. by rewrite app_nil_r. }
  unfold redeliverIdempotentEmail in *. simpl.
  rewrite (idempotentEmailFunction_run _ _ _ _ _ _ _ _ _ Hparse). cbv zeta.
  rewrite Hd.
  destruct (existsAndLeased (checked clk) (emailRecord w (eventId (context ev)))).
  - by apply IH.
  - simpl. set (w1 := commit _ w).
    destruct (IH w1) as (Hd' & ext & Htr & Hall).
    + by apply (parseContent_fulfilled _ _ _ _ w).
    + apply isDone_leased.
    + split; [done|]. eexists. rewrite Htr. subst w1. simpl. rewrite <- app_assoc.
      split; [reflexivity|]. by constructor.
Qed.

(** X2.  A body that parses to [null] makes [content.text] throw.
    [nonIdempotentEmailFunction] throws the [TypeError] with nothing
    done.  On a record that is not sent, [almostIdempotentEmailFunction]
    is rejected with nothing done, and [idempotentEmailFunction], when no
    lease is live, is rejected having written its lease and nothing else.
    However often such an event is delivered to
    [idempotentEmailFunction], the record is never marked sent and the
    attempts commit lease writes only: no email, no request. *)
Theorem null_body_never_sends (ev : event) (clk : clock)
  (flakyRes : response string) (answers : list (clock * response string))
  (w : world) :
  parse (event_data ev) w = (Fulfilled JNull, w) ->
  isDone w (eventId (context ev)) = false ->
  let id := eventId (context ev) in
  nonIdempotentEmailFunction region project base64ToString JSON_parse ev flakyRes w
  = (Thrown TypeError, w)
  /\ almostIdempotentEmailFunction region project base64ToString JSON_parse ev flakyRes w
     = (Rejected TypeError, w)
  /\ (existsAndLeased (checked clk) (emailRecord w id) = false ->
      idempotentEmailFunction region project base64ToString JSON_parse ev clk flakyRes w
      = (Rejected TypeError,
         commit (SetEmail id (leasedUntil (stamped clk + leaseTime))) w))
  /\ isDone (redeliverIdempotentEmail region project base64ToString JSON_parse
               ev answers w) id = false
  /\ exists ext,
       trace (redeliverIdempotentEmail region project base64ToString JSON_parse
                ev answers w) = trace w ++ ext
       /\ Forall (fun e => isCommit e = true) ext.
Proof.
  intros Hparse Hd id. subst id.
  split; [by rewrite (nonIdempotentEmailFunction_run _ _ _ _ _ _ _ _ Hparse)|].
  split.
  { rewrite (almostIdempotentEmailFunction_run _ _ _ _ _ _ _ _ Hparse). cbv zeta.
    by rewrite Hd. }
  split.
  { intros Hl. rewrite (idempotentEmailFunction_run _ _ _ _ _ _ _ _ _ Hparse). cbv zeta.
    by rewrite Hd, Hl. }
  by apply null_body_series.
Qed.

(** X3.  The attempt that takes the lease (record not sent, no live
    lease, content not [null]) writes the lease, sends the email, marks
    the record sent and then posts to the flaky service, in this order;
    it ends as the request does, and the record is [{sent: true}] also
    when the request fails. *)
Theorem lease_holder_sends_then_marks (ev : event) (clk : clock)
  (flakyRes : response string) (w : world) (content : json) :
  parse (event_data ev) w = (Fulfilled content, w) ->
  isNull content = false ->
  isDone w (eventId (context ev)) = false ->
  existsAndLeased (checked clk) (emailRecord w (eventId (context ev))) = false ->
  let id := eventId (context ev) in
  let after := (idempotentEmailFunction region project base64ToString JSON_parse
                  ev clk flakyRes w).2 in
  idempotentEmailFunction region project base64ToString JSON_parse ev clk flakyRes w
  = (ended flakyRes,
     {| db := applyWrite
                (applyWrite (db w) (SetEmail id (leasedUntil (stamped clk + leaseTime))))
                (SetEmail id sentDoc);
        trace := trace w
                 ++ [Commit (SetEmail id (leasedUntil (stamped clk + leaseTime)));
                     SendEmail (textOf content);
                     Commit (SetEmail id sentDoc);
                     Request "POST" (uri ("/flaky/" +:+ id)) (Some content)] |})
  /\ emailRecord after id = Some sentDoc.
Proof.
  intros Hparse Hnull Hd Hl id after. subst after id.
  rewrite (idempotentEmailFunction_run _ _ _ _ _ _ _ _ _ Hparse). cbv zeta.
  rewrite Hd, Hl, Hnull. simpl. rewrite <- app_assoc. split; [done|].
  unfold emailRecord. simpl. by rewrite lookup_insert_eq.
Qed.

(** X4.  However often one event is delivered to
    [idempotentEmailFunction], one attempt after the other, with whatever
    clocks and answers of the flaky service, at most one email is sent;
    none is when the record was sent before. *)
Theorem idempotentEmailFunction_sends_at_most_once (ev : event)
  (answers : list (clock * response string)) (w : world) :
  exists ext,
    trace (redeliverIdempotentEmail region project base64ToString JSON_parse
             ev answers w) = trace w ++ ext
    /\ (emailsSent ext <= 1)%nat
    /\ (isDone w (eventId (context ev)) = true -> emailsSent ext = 0%nat).
Proof.
  apply (series_at_most_once (clock * response string)
           (fun a w' => (idempotentEmailFunction region project base64ToString
                           JSON_parse ev a.1 a.2 w').2)
           (fun w' => isDone w' (eventId (context ev)))).
  intros [clk flakyRes] w'. apply idempotentEmail_step.
Qed.

(** X5.  [almostIdempotentEmailFunction] sends at most one email over
    attempts that run one after the other.  It looks at [sent] only: on a
    record that is not sent it sends, and replaces the record by
    [{sent: true}], whatever lease the record holds. *)
Theorem almostIdempotentEmailFunction_ignores_leases (ev : event)
  (answers : list (response string)) (w : world) :
  (exists ext,
     trace (redeliverAlmostIdempotentEmail region project base64ToString JSON_parse
              ev answers w) = trace w ++ ext
     /\ (emailsSent ext <= 1)%nat
     /\ (isDone w (eventId (context ev)) = true -> emailsSent ext = 0%nat))
  /\ (forall content flakyRes,
        parse (event_data ev) w = (Fulfilled content, w) ->
        isNull content = false ->
        isDone w (eventId (context ev)) = false ->
        almostIdempotentEmailFunction region project base64ToString JSON_parse
          ev flakyRes w
        = (ended flakyRes,
           {| db := applyWrite (db w) (SetEmail (eventId (context ev)) sentDoc);
              trace := trace w
                       ++ [SendEmail (textOf content);
                           Commit (SetEmail (eventId (context ev)) sentDoc);
                           Request "POST" (uri ("/flaky/" +:+ eventId (context ev)))
                             (Some content)] |})).
Proof.
  split.
  - apply (series_at_most_once (response string)
             (fun a w' => (almostIdempotentEmailFunction region project base64ToString
                             JSON_parse ev a w').2)
             (fun w' => isDone w' (eventId (context ev)))).
    intros flakyRes w'. apply almostIdempotentEmail_step.
  - intros content flakyRes Hparse Hnull Hd.
    rewrite (almostIdempotentEmailFunction_run _ _ _ _ _ _ _ _ Hparse). cbv zeta.
    by rewrite Hd, Hnull.
Qed.

(** X6.  [nonIdempotentEmailFunction] sends one email per delivery and
    never touches the store: after [n] deliveries of an event whose
    content is not [null], [n] emails are sent and [n] requests made. *)
Theorem nonIdempotentEmailFunction_sends_every_time (ev : event)
  (answers : list (response string)) (w : world) (content : json) :
  parse (event_data ev) w = (Fulfilled content, w) ->
  isNull content = false ->
  db (redeliverNonIdempotentEmail region project base64ToString JSON_parse
        ev answers w) = db w
  /\ exists ext,
       trace (redeliverNonIdempotentEmail region project base64ToString JSON_parse
                ev answers w) = trace w ++ ext
       /\ emailsSent ext = length answers
       /\ requestsTo "POST" (uri "/flaky") ext = length answers.
Proof.
  intros Hparse Hnull. revert w Hparse.
  induction answers as [|flakyRes answers IH]; intros w Hparse.
  { split; [done|]. exists []. by rewrite app_nil_r. }
  unfold redeliverNonIdempotentEmail in *. simpl.
  rewrite (nonIdempotentEmailFunction_run _ _ _ _ _ _ _ _ Hparse), Hnull. simpl.
  set (w1 := {| db := db w; trace := _ |}).
  destruct (IH w1) as (Hdb & ext & Htr & Hmail & Hreq).
  { by apply (parseContent_fulfilled _ _ _ _ w). }
  split; [by rewrite Hdb|].
  eexists. rewrite Htr. subst w1. simpl. rewrite <- app_assoc.
  split; [reflexivity|]. simpl.
  change (SendEmail (textOf content)
          :: Request "POST" (uri "/flaky") (Some content) :: ext)
    with ([SendEmail (textOf content); Request "POST" (uri "/flaky") (Some content)]
          ++ ext).
  rewrite emailsSent_app, requestsTo_app, Hmail, Hreq.
  unfold emailsSent, requestsTo. simpl. by rewrite !String.eqb_refl.
Qed.

End EmailGuarantees.

(** ** What the document functions guarantee *)

Lemma foldl_store_idempotent {A} (step : A -> world -> world)
  (g : firestore -> firestore) (a : A) (answers : list A) (w : world) :
  (forall a' w', db (step a' w') = g (db w')) ->
  (forall s, g (g s) = g s) ->
  db (foldl (fun w' a' => step a' w') (step a w) answers) = db (step a w).
Proof.
  intros Hstep Hidem. revert a w. induction answers as [|a' answers IH]; intros a w; [done|].
  simpl. rewrite IH, !Hstep. apply Hidem.
Qed.

Lemma applyWrite_twice s wr : applyWrite (applyWrite s wr) wr = applyWrite s wr.
Proof.
  destruct wr as [docId content | docId doc | collection docId o]; destruct s as [c e o'];
    unfold applyWrite, collectionDocs; simpl; f_equal.
  - apply insert_insert_eq.
  - apply insert_insert_eq.
  - rewrite lookup_insert_eq. simpl. by rewrite !insert_insert_eq.
Qed.

Section DocumentGuarantees.

Variables region project : string.
Variable base64ToString : string -> string.
Variable JSON_parse : string -> option json.

Local Abbreviation parse := (parseContent base64ToString JSON_parse).
Local Abbreviation uri := (endpoint region project).

(** What [idempotentFirestoreFunction] does to the store depends on the
    event alone: nothing, or the write of one document. *)
Lemma idempotentFirestoreFunction_store ev :
  (forall flakyRes w,
     db (idempotentFirestoreFunction region project base64ToString JSON_parse
           ev flakyRes w).2 = db w)
  \/ (exists content,
        forall flakyRes w,
          db (idempotentFirestoreFunction region project base64ToString JSON_parse
                ev flakyRes w).2
          = applyWrite (db w) (SetContent (eventId (context ev)) content)).
Proof.
  unfold idempotentFirestoreFunction, andThen, bind, parseContent.
  destruct (JSON_parse _) as [content|]; [|by left].
  unfold setContent. destruct (isPlainObject content) eqn:Hobj.
  - right. exists content. intros flakyRes w. unfold ret. cbn beta iota.
    rewrite Hobj. unfold callback, request, bind, emit. simpl. by destruct flakyRes.
  - left. intros flakyRes w. unfold ret. cbn beta iota. by rewrite Hobj.
Qed.

(** X7.  Delivering one event to [idempotentFirestoreFunction] again,
    any number of times and with any answers of the flaky service, leaves
    the store as the first delivery left it, and the store holds at most
    one document more than before the first. *)
Theorem idempotentFirestoreFunction_redelivery (ev : event)
  (flakyRes : response string) (answers : list (response string)) (w : world) :
  db (redeliverIdempotentFirestore region project base64ToString JSON_parse
        ev (flakyRes :: answers) w)
  = db (idempotentFirestoreFunction region project base64ToString JSON_parse
          ev flakyRes w).2
  /\ (size (contents (db (redeliverIdempotentFirestore region project base64ToString
                            JSON_parse ev (flakyRes :: answers) w)))
      <= S (size (contents (db w))))%nat.
Proof.
  assert (Hsame : db (redeliverIdempotentFirestore region project base64ToString
                        JSON_parse ev (flakyRes :: answers) w)
                  = db (idempotentFirestoreFunction region project base64ToString
                          JSON_parse ev flakyRes w).2).
  { unfold redeliverIdempotentFirestore. simpl.
    destruct (idempotentFirestoreFunction_store ev) as [Hkeep | [content Hset]].
    - apply (foldl_store_idempotent
               (fun a w' => (idempotentFirestoreFunction region project base64ToString
                               JSON_parse ev a w').2) (fun s => s)); [exact Hkeep|done].
    - apply (foldl_store_idempotent
               (fun a w' => (idempotentFirestoreFunction region project base64ToString
                               JSON_parse ev a w').2)
               (fun s => applyWrite s (SetContent (eventId (context ev)) content)));
        [exact Hset|]. intros s. apply applyWrite_twice. }
  split; [exact Hsame|]. rewrite Hsame.
  destruct (idempotentFirestoreFunction_store ev) as [Hkeep | [content Hset]].
  - rewrite Hkeep. lia.
  - rewrite Hset. simpl.
    destruct (contents (db w) !! eventId (context ev)) eqn:Hold.
    + rewrite map_size_insert_Some; [lia|done].
    + rewrite map_size_insert_None; [lia|done].
Qed.

Lemma nonIdempotentFirestoreFunction_run ev autoId flakyRes w content :
  parse (event_data ev) w = (Fulfilled content, w) ->
  isPlainObject content = true ->
  contents (db w) !! autoId = None ->
  nonIdempotentFirestoreFunction region project base64ToString JSON_parse
    ev autoId flakyRes w
  = (ended flakyRes,
     {| db := applyWrite (db w) (SetContent autoId content);
        trace := trace w ++ [Commit (SetContent autoId content);
                             Request "POST" (uri "/flaky") (Some content)] |}).
Proof.
  intros Hparse Hobj Hfresh.
  unfold nonIdempotentFirestoreFunction, andThen, bind at 1. rewrite Hparse.
  unfold addContent. rewrite Hobj. unfold bind at 1. rewrite Hfresh.
  unfold callback, request, bind, emit, commit, ended.
  destruct flakyRes; simpl; by rewrite <- app_assoc.
Qed.

(** X8.  [nonIdempotentFirestoreFunction] adds a document on every
    delivery: after [n] deliveries of one event whose content is a plain
    object, under fresh ids that differ from one another, the store holds
    [n] documents more, each with that content, whatever the flaky
    service answered. *)
Theorem nonIdempotentFirestoreFunction_duplicates (ev : event)
  (answers : list (string * response string)) (w : world) (content : json) :
  parse (event_data ev) w = (Fulfilled content, w) ->
  isPlainObject content = true ->
  NoDup (map fst answers) ->
  Forall (fun a => contents (db w) !! a.1 = None) answers ->
  let after := redeliverNonIdempotentFirestore region project base64ToString
                 JSON_parse ev answers w in
  size (contents (db after)) = (size (contents (db w)) + length answers)%nat
  /\ Forall (fun a => contents (db after) !! a.1 = Some content) answers
  /\ (forall docId, docId ∉ map fst answers ->
        contents (db after) !! docId = contents (db w) !! docId).
Proof.
  intros Hparse Hobj. revert w Hparse.
  induction answers as [|[autoId flakyRes] answers IH]; intros w Hparse Hids Hfresh after.
  { subst after. simpl. split; [lia|]. split; [done|done]. }
  apply NoDup_cons in Hids as [Hnew Hids]. apply Forall_cons in Hfresh as [Hhere Hfresh].
  simpl in Hhere, Hnew.
  subst after. unfold redeliverNonIdempotentFirestore in *. simpl foldl.
  rewrite (nonIdempotentFirestoreFunction_run _ _ _ _ _ Hparse Hobj Hhere). cbn [snd].
  match goal with |- context [foldl _ ?x _] => set (w1 := x) end.
  assert (Hw1 : forall docId,
             contents (db w1) !! docId
             = if decide (autoId = docId) then Some content else contents (db w) !! docId).
  { intros docId. subst w1. simpl. apply lookup_insert. }
  destruct (IH w1) as (Hsize & Hall & Hrest).
  - by apply (parseContent_fulfilled _ _ _ _ w).
  - done.
  - apply Forall_forall. intros [docId res] Hin. simpl. rewrite Hw1.
    case_decide as Heq.
    + subst. exfalso. apply Hnew. apply list_elem_of_fmap. by exists (docId, res).
    + rewrite Forall_forall in Hfresh. by apply (Hfresh (docId, res)).
  - split; [|split].
    + rewrite Hsize. subst w1. simpl. rewrite map_size_insert_None by done. lia.
    + constructor; [|done]. simpl. rewrite Hrest by done. rewrite Hw1.
      by rewrite decide_True.
    + intros docId Hout. simpl in Hout. apply not_elem_of_cons in Hout as [Hne Hout].
      rewrite Hrest by done. rewrite Hw1. by rewrite decide_False.
Qed.

End DocumentGuarantees.

(** ** What the order pipelines guarantee *)

Section OrderGuarantees.

Variables region project : string.
Variable base64ToString : string -> string.

Local Abbreviation uri := (endpoint region project).
Local Abbreviation received := (receivedEffect base64ToString).
Local Abbreviation askCook := (askCookEffect region project).
Local Abbreviation notifyCook := (notifyCookEffect region project).
Local Abbreviation order := (newOrder base64ToString).

(** All of one attempt of [nonIdempotentProcessOrder]. *)
Lemma nonIdempotentProcessOrder_run collection ev cookRes autoId mealRes w :
  nonIdempotentProcessOrder region project base64ToString collection
    ev cookRes autoId mealRes w
  = match cookRes with
    | Failure status _ =>
        (Rejected (StatusCodeError status),
         {| db := db w; trace := trace w ++ [received ev; askCook] |})
    | Success res =>
        let assigning := Log ("Assigning cook " +:+ cook res +:+ " and storing order") in
        let stored := withCook (order ev) (cook res) in
        match collectionDocs collection (db w) !! autoId with
        | Some _ =>
            (Rejected AlreadyExists,
             {| db := db w; trace := trace w ++ [received ev; askCook; assigning] |})
        | None =>
            (ended mealRes,
             {| db := applyWrite (db w) (SetOrder collection autoId stored);
                trace := trace w
                         ++ [received ev; askCook; assigning;
                             Commit (SetOrder collection autoId stored);
                             Request "POST" (uri "/prepareMeal/")
                               (Some (orderJson stored))] |})
        end
    end.
Proof.
  unfold nonIdempotentProcessOrder, andThen, bind, emit, request, callback, addOrder,
    ret, commit, receivedEffect, askCookEffect, ended.
  simpl. destruct cookRes as [res|status msg]; simpl.
  - destruct (collectionDocs collection (db w) !! autoId); simpl.
    + by rewrite <- !app_assoc.
    + destruct mealRes; simpl; by rewrite <- !app_assoc.
  - by rewrite <- app_assoc.
Qed.

(** X9.  One attempt of [processOrder] and [processOrderRetry].  When
    [chooseCook] fails the attempt is rejected, nothing is stored and
    [prepareMeal] is not called.  When it succeeds the order is stored
    with the chosen cook, under the generated id, before [prepareMeal]
    is called with that order: the order stays stored when [prepareMeal]
    fails. *)
Theorem nonIdempotentProcessOrder_attempt (collection : string) (ev : event)
  (cookRes : response chosen) (autoId : string) (mealRes : response string)
  (w : world) :
  (forall status msg,
     cookRes = Failure status msg ->
     nonIdempotentProcessOrder region project base64ToString collection
       ev cookRes autoId mealRes w
     = (Rejected (StatusCodeError status),
        {| db := db w; trace := trace w ++ [received ev; askCook] |}))
  /\ (forall res,
        cookRes = Success res ->
        collectionDocs collection (db w) !! autoId = None ->
        let stored := withCook (order ev) (cook res) in
        nonIdempotentProcessOrder region project base64ToString collection
          ev cookRes autoId mealRes w
        = (ended mealRes,
           {| db := applyWrite (db w) (SetOrder collection autoId stored);
              trace := trace w
                       ++ [received ev; askCook;
                           Log ("Assigning cook " +:+ cook res +:+ " and storing order");
                           Commit (SetOrder collection autoId stored);
                           Request "POST" (uri "/prepareMeal/")
                             (Some (orderJson stored))] |})).
Proof.
  rewrite nonIdempotentProcessOrder_run. split.
  - by intros status msg ->.
  - intros res -> Hfresh. cbv zeta. by rewrite Hfresh.
Qed.

Lemma storedOrders_keys o answers :
  (storedOrders o answers).*1 ⊆ answers.*1.
Proof.
  induction answers as [|[autoId [[res|status msg] mealRes]] answers IH]; simpl.
  - done.
  - unfold storedOrders in *. simpl. by apply list_subseteq_skip.
  - unfold storedOrders in *. simpl. by apply list_subseteq_cons.
Qed.

Lemma storedOrders_length o answers :
  length (storedOrders o answers)
  = length (List.filter (fun a => isSuccess a.2.1) answers).
Proof.
  unfold storedOrders.
  induction answers as [|[autoId [[res|status msg] mealRes]] answers IH]; simpl;
    [done|by f_equal|exact IH].
Qed.

(** X10.  [processOrder] and [processOrderRetry] store the order anew on
    every delivery: after any deliveries of one event under fresh ids
    that differ from one another, the collection holds what it held and,
    for each answer of [chooseCook] that was a success, one more document
    with the same order id, timestamp and meal and with the cook of that
    answer. *)
Theorem nonIdempotentProcessOrder_duplicates (collection : string) (ev : event)
  (answers : list (string * (response chosen * response string))) (w : world) :
  NoDup answers.*1 ->
  Forall (fun a => collectionDocs collection (db w) !! a.1 = None) answers ->
  let after := redeliverNonIdempotentOrder region project base64ToString
                 collection ev answers w in
  collectionDocs collection (db after)
  = list_to_map (storedOrders (order ev) answers) ∪ collectionDocs collection (db w)
  /\ Forall (fun p => order_id p.2 = eventId (context ev)
                      /\ order_timestamp p.2 = timestamp (context ev)
                      /\ order_meal p.2 = order_meal (order ev))
       (storedOrders (order ev) answers)
  /\ length (storedOrders (order ev) answers)
     = length (List.filter (fun a => isSuccess a.2.1) answers).
Proof.
  intros Hids Hfresh after. subst after. split; [|split].
  - revert w Hids Hfresh.
    induction answers as [|[autoId [cookRes mealRes]] answers IH]; intros w Hids Hfresh.
    { simpl. by rewrite (left_id_L ∅ (∪)). }
    apply NoDup_cons in Hids as [Hnew Hids]. apply Forall_cons in Hfresh as [Hhere Hfresh].
    simpl in Hhere, Hnew.
    unfold redeliverNonIdempotentOrder in *. simpl foldl.
    rewrite nonIdempotentProcessOrder_run.
    destruct cookRes as [res|status msg].
    + cbv zeta. rewrite Hhere. cbn [snd].
      match goal with |- context [foldl _ ?x _] => set (w1 := x) end.
      assert (Hw1 : collectionDocs collection (db w1)
                    = <[autoId := withCook (order ev) (cook res)]>
                        (collectionDocs collection (db w))).
      { subst w1. cbn [db]. apply map_eq. intros docId.
        rewrite collectionDocs_write, lookup_insert. by repeat case_decide. }
      rewrite IH; [|done|].
      * rewrite Hw1. unfold storedOrders. simpl. fold (storedOrders (order ev) answers).
        rewrite <- insert_union_l. symmetry. apply insert_union_r.
        apply not_elem_of_list_to_map_1. intros Hin. apply Hnew.
        by apply (storedOrders_keys (order ev) answers).
      * apply Forall_forall. intros a Hin. rewrite Hw1.
        rewrite lookup_insert_ne.
        -- rewrite Forall_forall in Hfresh. by apply Hfresh.
        -- intros Heq. apply Hnew. apply list_elem_of_fmap. by exists a.
    + cbn [snd]. rewrite IH; [|done|done]. done.
  - unfold storedOrders. apply Forall_forall. intros [docId o] Hin.
    apply list_elem_of_omap in Hin as ([autoId [[res|status msg] mealRes]] & _ & Heq);
      simpl in Heq; [|done]. injection Heq as <- <-. done.
  - apply storedOrders_length.
Qed.

End OrderGuarantees.

Section PipelineGuarantees.

Variables region project : string.
Variable base64ToString : string -> string.

Local Abbreviation uri := (endpoint region project).
Local Abbreviation notifyCook := (notifyCookEffect region project).
Local Abbreviation order := (newOrder base64ToString).
Local Abbreviation redeliver := (redeliverOrder region project base64ToString).

Lemma redeliverOrder_cons ev cookRes mealRes answers w :
  redeliver ev ((cookRes, mealRes) :: answers) w
  = redeliver ev answers
      (processOrderRetryIdempotent region project base64ToString ev cookRes mealRes w).2.
Proof. done. Qed.

(** X11.  The first cook wins.  When one event is delivered to
    [processOrderRetryIdempotent] any number of times, starting without
    a record, the record afterwards is the order with the cook of the
    first answer of [chooseCook] that was a success, whatever cooks later
    answers name; it is missing exactly when no answer was a success. *)
Theorem first_chosen_cook_is_stored (ev : event)
  (answers : list (response chosen * response string)) (w : world) :
  orderRecord w (eventId (context ev)) = None ->
  orderRecord (redeliver ev answers w) (eventId (context ev))
  = (fun res => withCook (order ev) (cook res)) <$> firstChosen answers.
Proof.
  revert w. induction answers as [|[cookRes mealRes] answers IH]; intros w Hnone; [done|].
  rewrite redeliverOrder_cons, pipeline_run.
  destruct cookRes as [res|status msg].
  - rewrite Hnone. cbv zeta. cbn [snd firstChosen]. simpl fmap.
    apply (deliverAll_kept region project base64ToString).
    unfold orderRecord. cbn [db]. rewrite collectionDocs_write. by rewrite decide_True.
  - cbn [snd firstChosen]. by apply IH.
Qed.

Lemma requestsTo_cons method target e tr :
  requestsTo method target (e :: tr)
  = ((if isRequestTo method target e then 1 else 0) + requestsTo method target tr)%nat.
Proof. unfold requestsTo. simpl. by destruct (isRequestTo method target e). Qed.

(** X12.  [prepareMeal] is notified once per attempt in which
    [chooseCook] succeeded, not once per order: over any deliveries of
    one event [processOrderRetryIdempotent] sends as many requests to
    [chooseCook] as there are attempts and as many to [prepareMeal] as
    there are successful answers of [chooseCook], each with the body
    [{id: eventId}]. *)
Theorem notified_on_every_successful_attempt (ev : event)
  (answers : list (response chosen * response string)) (w : world) :
  exists ext,
    trace (redeliver ev answers w) = trace w ++ ext
    /\ requestsTo "GET" (uri "/chooseCook/") ext = length answers
    /\ requestsTo "POST" (uri "/prepareMeal/") ext
       = length (List.filter (fun a => isSuccess a.1) answers)
    /\ Forall (fun e => isRequestTo "POST" (uri "/prepareMeal/") e = true ->
                        e = notifyCook ev) ext.
Proof.
  revert w. induction answers as [|[cookRes mealRes] answers IH]; intros w.
  { exists []. by rewrite app_nil_r. }
  rewrite redeliverOrder_cons, pipeline_run.
  match goal with |- context [redeliver ev answers ?x] => set (w1 := x) end.
  assert (Hshape : exists ext1,
             trace w1 = trace w ++ ext1
             /\ requestsTo "GET" (uri "/chooseCook/") ext1 = 1%nat
             /\ requestsTo "POST" (uri "/prepareMeal/") ext1
                = (if isSuccess cookRes then 1 else 0)%nat
             /\ Forall (fun e => isRequestTo "POST" (uri "/prepareMeal/") e = true ->
                                 e = notifyCook ev) ext1).
  { subst w1. destruct cookRes as [res|status msg];
      [destruct (orderRecord w (eventId (context ev)))|];
      cbv zeta; cbn [snd trace]; eexists; (split; [reflexivity|]);
      unfold receivedEffect, askCookEffect, notifyCookEffect;
      rewrite !requestsTo_cons; unfold requestsTo; simpl;
      rewrite !String.eqb_refl; simpl; (split; [done|]); (split; [done|]);
      repeat constructor; simpl; try discriminate; done. }
  destruct Hshape as (ext1 & Htr1 & Hask1 & Hmeal1 & Hbody1).
  destruct (IH w1) as (ext2 & Htr2 & Hask2 & Hmeal2 & Hbody2).
  exists (ext1 ++ ext2). rewrite Htr2, Htr1, <- app_assoc.
  split; [done|]. rewrite !requestsTo_app, Hask1, Hask2, Hmeal1, Hmeal2.
  split; [done|]. split.
  - simpl. by destruct cookRes.
  - by apply Forall_app.
Qed.

End PipelineGuarantees.

(** ** What the ledger leaves alone *)

Lemma runOp_frame op w :
  contents (db (runOp op w).2) = contents (db w)
  /\ orders (db (runOp op w).2) = orders (db w)
  /\ (forall id, opId op <> id -> emailRecord (runOp op w).2 id = emailRecord w id).
Proof.
  destruct op as [leaseDuration id' clk | id']; simpl.
  - destruct (decide_cases leaseDuration id' clk w)
      as [(Hrun & _ & _) | [(Hrun & _) | (Hrun & _ & _)]]; rewrite Hrun; simpl;
      try done.
    split; [done|]. split; [done|]. intros id Hne. by apply emailRecord_commit_ne.
  - split; [done|]. split; [done|]. intros id Hne. by apply emailRecord_commit_ne.
Qed.

(** X13.  [shouldSendWithLease] and [markSent] write the [sentEmails]
    record of their own identifier and nothing else: after any run of
    them the [contents] collection and the order collections are as
    before, and so is the record of every identifier that no operation of
    the run names. *)
Theorem ledger_writes_only_its_records (ops : list ledgerOp) (w : world) :
  contents (db (runOps ops w).2) = contents (db w)
  /\ orders (db (runOps ops w).2) = orders (db w)
  /\ (forall id, id ∉ map opId ops ->
        emailRecord (runOps ops w).2 id = emailRecord w id).
Proof.
  revert w. induction ops as [|op ops IH]; intros w; [done|].
  simpl. destruct (runOp_frame op w) as (Hc & Ho & He).
  destruct (runOp op w) as [r w1]. simpl in Hc, Ho, He.
  destruct (IH w1) as (IHc & IHo & IHe).
  destruct (runOps ops w1) as [rs w2]. simpl in *.
  split; [congruence|]. split; [congruence|].
  intros id Hout. apply not_elem_of_cons in Hout as [Hne Hout].
  rewrite IHe by done. apply He. congruence.
Qed.

(** ** The HTTP function and its caller *)

Section CallerGuarantees.

Variables region project : string.

Local Abbreviation uri := (endpoint region project).
Local Abbreviation attempts := (attemptsFrom region project).

Lemma httpFunction_run (reqBody : option json) (flakyRes : response string)
  (w : world) :
  httpFunction region project reqBody flakyRes w
  = (if isSuccess flakyRes
     then {| statusCode := 200; text := "HTTP function succeeded!" |}
     else {| statusCode := 500; text := "HTTP function failed." |},
     {| db := db w; trace := trace w ++ [Request "POST" (uri "/flaky") reqBody] |}).
Proof. by destruct flakyRes. Qed.

(** The attempts from [number] on: the requests are numbered
    consecutively, every one but the last failed, and the last either
    succeeded or used up the retries. *)
Lemma attemptsFrom_spec (retries number : nat) (answer : nat -> response string) :
  let n := posts (attempts retries number answer).1 in
  (1 <= n <= S retries)%nat
  /\ (attempts retries number answer).1
     = flat_map
         (fun k => [Attempt k; Post (uri "/httpFunction") (JObj [("foo", JStr "bar")])])
         (seq number n)
  /\ (forall k : nat, (number <= k < number + n - 1)%nat -> isSuccess (answer k) = false)
  /\ match answer (number + n - 1)%nat with
     | Success res => (attempts retries number answer).2 = Fulfilled res
     | Failure status _ =>
         n = S retries
         /\ (attempts retries number answer).2 = Rejected (StatusCodeError status)
     end.
Proof.
  revert number. induction retries as [|retries IH]; intros number; simpl.
  - destruct (answer number) as [res|status msg] eqn:Hans; simpl;
      (split; [unfold posts; simpl; lia|]); (split; [done|]);
      (split; [unfold posts; simpl; intros k Hk; lia|]);
      unfold posts; simpl; replace (number + 1 - 1)%nat with number by lia;
      rewrite Hans; done.
  - destruct (answer number) as [res|status msg] eqn:Hans; simpl.
    + (split; [unfold posts; simpl; lia|]); (split; [done|]);
        (split; [unfold posts; simpl; intros k Hk; lia|]).
      unfold posts. simpl. replace (number + 1 - 1)%nat with number by lia.
      by rewrite Hans.
    + specialize (IH (S number)). cbv zeta in IH.
      destruct (attemptsFrom region project retries (S number) answer) as [rest r].
      simpl in IH |- *. destruct IH as (Hn & Hsent & Hfail & Hlast).
      unfold posts in *. simpl.
      set (n := length (List.filter isPost rest)) in *.
      split; [lia|]. split; [by rewrite <- Hsent|]. split.
      * intros k Hk. destruct (decide (k = number)) as [->|Hne]; [by rewrite Hans|].
        apply Hfail. lia.
      * replace (number + S n - 1)%nat with (number + n - 0)%nat by lia.
        destruct (answer (number + n - 0)%nat); [done|].
        destruct Hlast as [-> ->]. done.
Qed.

(** X15.  The caller makes at least one and at most eleven requests (the
    first attempt and ten retries), numbered from 1.  It stops at the
    first answer that is a success and is then fulfilled with its body;
    when all eleven answers are failures it is rejected with the error of
    the eleventh. *)
Theorem promiseRetry_stops_at_first_success (answer : nat -> response string) :
  let n := posts (promiseRetry region project answer).1 in
  (1 <= n <= 11)%nat
  /\ (forall k : nat, (1 <= k < n)%nat -> isSuccess (answer k) = false)
  /\ match answer n with
     | Success res => (promiseRetry region project answer).2 = Fulfilled res
     | Failure status _ =>
         n = 11%nat
         /\ (promiseRetry region project answer).2 = Rejected (StatusCodeError status)
     end
  /\ caller region project answer
     = Calling
       :: flat_map
            (fun k => [Attempt k;
                       Post (uri "/httpFunction") (JObj [("foo", JStr "bar")])])
            (seq 1 n)
       ++ [match answer n with
           | Success res => Succeeded res
           | Failure status _ => Failed (StatusCodeError status)
           end].
Proof.
  unfold caller, promiseRetry. cbv zeta.
  destruct (attemptsFrom_spec 10 1 answer) as (Hn & Hsent & Hfail & Hlast).
  cbv zeta in Hn, Hsent, Hfail, Hlast.
  set (n := posts (attempts 10 1 answer).1) in *.
  replace (1 + n - 1)%nat with n in Hlast by lia.
  split; [lia|]. split; [|split].
  - intros k Hk. apply Hfail. lia.
  - done.
  - destruct (attempts 10 1 answer) as [sent r]. simpl in *. rewrite <- Hsent.
    destruct (answer n); [by rewrite Hlast|]. destruct Hlast as [_ ->]. done.
Qed.

(** X14.  [httpFunction] always answers, whatever the flaky service
    does: 200 when the flaky service answered 2xx, 500 otherwise, after
    one request that carries the body it received, and with the store
    untouched.  So the caller, whose requests it serves, is fulfilled
    with its 200 text exactly when the flaky service succeeds during one
    of the first eleven attempts, and is rejected with status 500 after
    exactly eleven requests otherwise. *)
Theorem caller_succeeds_when_flaky_does (flakyAt : nat -> response string)
  (reqBody : option json) (flakyRes : response string) (w : world) :
  let answer k :=
    received (httpFunction region project (Some (JObj [("foo", JStr "bar")]))
                (flakyAt k) w).1 in
  httpFunction region project reqBody flakyRes w
  = (if isSuccess flakyRes
     then {| statusCode := 200; text := "HTTP function succeeded!" |}
     else {| statusCode := 500; text := "HTTP function failed." |},
     {| db := db w; trace := trace w ++ [Request "POST" (uri "/flaky") reqBody] |})
  /\ ((promiseRetry region project answer).2 = Fulfilled "HTTP function succeeded!"
      <-> exists k : nat, (1 <= k <= 11)%nat /\ isSuccess (flakyAt k) = true)
  /\ ((forall k : nat, (1 <= k <= 11)%nat -> isSuccess (flakyAt k) = false) ->
      (promiseRetry region project answer).2 = Rejected (StatusCodeError 500)
      /\ posts (promiseRetry region project answer).1 = 11%nat).
Proof.
  intros answer. split; [apply httpFunction_run|].
  assert (Hanswer : forall k,
             answer k = if isSuccess (flakyAt k) then Success "HTTP function succeeded!"
                        else Failure 500 "HTTP function failed.").
  { intros k. subst answer. cbv beta. rewrite httpFunction_run.
    by destruct (isSuccess (flakyAt k)). }
  unfold promiseRetry.
  destruct (attemptsFrom_spec 10 1 answer) as (Hn & _ & Hfail & Hlast).
  cbv zeta in Hn, Hfail, Hlast.
  set (n := posts (attempts 10 1 answer).1) in *.
  replace (1 + n - 1)%nat with n in Hlast by lia.
  assert (Hbefore : forall k : nat, (1 <= k < n)%nat -> isSuccess (flakyAt k) = false).
  { intros k Hk. specialize (Hfail k). rewrite Hanswer in Hfail.
    destruct (isSuccess (flakyAt k)); [|done]. apply Hfail. lia. }
  rewrite Hanswer in Hlast.
  destruct (isSuccess (flakyAt n)) eqn:Hatn.
  - split.
    + split; [|done]. intros _. exists n. split; [lia|done].
    + intros Hnone. rewrite Hnone in Hatn by lia. discriminate.
  - destruct Hlast as [Hn11 Hr]. split.
    + split; [by rewrite Hr|]. intros (k & Hk & Hsucc).
      destruct (decide (k = n)) as [->|Hne]; [congruence|].
      rewrite Hbefore in Hsucc by lia. discriminate.
    + intros _. done.
Qed.


End CallerGuarantees.

(** ** These properties on the sample inputs *)

Lemma unparsable_body_throws_first_witness :
  idempotentEmailFunction sampleRegion sampleProject sampleBase64ToString sampleParse
    pizzaEvent at50 (flaky true) emptyWorld
  = (Thrown SyntaxError, emptyWorld).
Proof.
  destruct (unparsable_body_throws_first sampleRegion sampleProject sampleBase64ToString
              sampleParse pizzaEvent "a1" at50 (flaky true) emptyWorld eq_refl)
    as (_ & _ & _ & _ & Hemail & _).
  exact Hemail.
Defined.

Lemma null_body_never_sends_witness :
  idempotentEmailFunction sampleRegion sampleProject sampleBase64ToString sampleParse
    nullEvent at50 (flaky true) emptyWorld
  = (Rejected TypeError, commit (SetEmail "e2" (leasedUntil 60050)) emptyWorld)
  /\ isDone (redeliverIdempotentEmail sampleRegion sampleProject sampleBase64ToString
               sampleParse nullEvent
               [(at50, flaky true); ({| checked := 70000; stamped := 70001 |}, flaky true)]
               emptyWorld) "e2"
     = false.
Proof.
  destruct (null_body_never_sends sampleRegion sampleProject sampleBase64ToString
              sampleParse nullEvent at50 (flaky true)
              [(at50, flaky true); ({| checked := 70000; stamped := 70001 |}, flaky true)]
              emptyWorld eq_refl eq_refl)
    as (_ & _ & Hone & Hnever & _).
  split; [apply Hone; reflexivity | exact Hnever].
Defined.

Lemma lease_holder_sends_then_marks_witness :
  emailRecord
    (idempotentEmailFunction sampleRegion sampleProject sampleBase64ToString sampleParse
       bareEvent {| checked := 100; stamped := 100 |} (flaky false) leasedWorld).2 "e1"
  = Some sentDoc.
Proof.
  destruct (lease_holder_sends_then_marks sampleRegion sampleProject sampleBase64ToString
              sampleParse bareEvent {| checked := 100; stamped := 100 |} (flaky false)
              leasedWorld (JObj []) eq_refl eq_refl eq_refl eq_refl)
    as (_ & Hrecord).
  exact Hrecord.
Defined.

Lemma nonIdempotentEmailFunction_sends_every_time_witness :
  db (redeliverNonIdempotentEmail sampleRegion sampleProject sampleBase64ToString
        sampleParse bareEvent [flaky false; flaky false; flaky true] emptyWorld)
  = emptyStore.
Proof.
  destruct (nonIdempotentEmailFunction_sends_every_time sampleRegion sampleProject
              sampleBase64ToString sampleParse bareEvent
              [flaky false; flaky false; flaky true] emptyWorld (JObj [])
              eq_refl eq_refl)
    as (Hstore & _).
  exact Hstore.
Defined.

Lemma nonIdempotentFirestoreFunction_duplicates_witness :
  size (contents (db (redeliverNonIdempotentFirestore sampleRegion sampleProject
                        sampleBase64ToString sampleParse bareEvent
                        [("a1", flaky false); ("a2", flaky true)] storedWorld)))
  = (size (contents (db storedWorld)) + 2)%nat.
Proof.
  destruct (nonIdempotentFirestoreFunction_duplicates sampleRegion sampleProject
              sampleBase64ToString sampleParse bareEvent
              [("a1", flaky false); ("a2", flaky true)] storedWorld (JObj [])
              eq_refl eq_refl)
    as (Hsize & _).
  - compute_done.
  - repeat constructor.
  - exact Hsize.
Defined.

Lemma nonIdempotentProcessOrder_duplicates_witness :
  length (storedOrders (newOrder sampleBase64ToString pizzaEvent)
            [("a1", (chooseCook true 0, prepareMeal false));
             ("a2", (chooseCook true 2, prepareMeal true))])
  = 2%nat.
Proof.
  destruct (nonIdempotentProcessOrder_duplicates sampleRegion sampleProject
              sampleBase64ToString "incomingRetry" pizzaEvent
              [("a1", (chooseCook true 0, prepareMeal false));
               ("a2", (chooseCook true 2, prepareMeal true))] emptyWorld)
    as (_ & _ & Hcount).
  - compute_done.
  - repeat constructor.
  - exact Hcount.
Defined.

Lemma first_chosen_cook_is_stored_witness :
  orderRecord
    (redeliverOrder sampleRegion sampleProject sampleBase64ToString pizzaEvent
       cookAnswers emptyWorld) "e1"
  = Some {| order_id := "e1"; order_timestamp := "2018-05-01T10:00:00.000Z";
            order_meal := "pizza"; order_cook := Some "Mike" |}.
Proof.
  apply (first_chosen_cook_is_stored sampleRegion sampleProject sampleBase64ToString
           pizzaEvent cookAnswers emptyWorld).
  reflexivity.
Defined.
